(** * The four-digit expression engine of [solution.ts]

    A shallow embedding of the classes [Segment], [DigitSegment],
    [Combination], [Addition], [Subtraction] and [Calculator], followed by
    the properties of the engine.

    Modelling conventions.
    - A JavaScript [number] is an integer [Z] (the values [parseInt] returns,
      apart from [NaN]), small enough for exact arithmetic and for [toString]
      to print the plain decimal numeral; bitwise operators are [Z.lor] and
      [Z.lxor].
    - A [Set<string>] is a duplicate-free list in insertion order, which is the
      order [forEach] and [values()] follow.
    - [Map<number, string[]>] is a [gmap Z _].
    - A [throw] is an [Outcome]; the [do ... while] loop takes its number of
      rounds as fuel. *)

From Stdlib Require Import ZArith List String Ascii Bool Lia.
From stdpp Require Import base option gmap sorting.
Import ListNotations.

Local Open Scope string_scope.
Local Open Scope Z_scope.
Local Open Scope list_scope.

(** ** Decimal numerals: [Number.prototype.toString] on integers *)

Definition digitChar (d : Z) : ascii :=
  ascii_of_nat (48 + Z.to_nat d).

(** The numeral of a non-negative [n] in front of [suffix]; [fuel] bounds the
    number of divisions by ten. *)
Fixpoint decimalOf (fuel : nat) (n : Z) (suffix : string) : string :=
  let s := String (digitChar (n mod 10)) suffix in
  match fuel with
  | O => s
  | S f => if n <? 10 then s else decimalOf f (n / 10) s
  end.

Definition toStringZ (n : Z) : string :=
  if n <? 0
  then String "-" (decimalOf (Z.to_nat (Z.log2 (- n))) (- n) "")
  else decimalOf (Z.to_nat (Z.log2 n)) n "".

(** ** [Set<string>] *)

Definition setHas (text : string) (set : list string) : bool :=
  existsb (String.eqb text) set.

Definition setAdd (text : string) (set : list string) : list string :=
  if setHas text set then set else set ++ [text].

(** ** class Segment *)

Inductive Operator := OpAdd | OpSub | OpMul | OpDiv.

#[local] Unset Elimination Schemes.
Inductive Segment := mkSegment {
  operator : option Operator;
  operandA : option Segment;
  operandB : option Segment;
  expressions : list string;
  value : Z;
  usedDigits : Z;
  _isValid : bool;
  _isNumber : bool;
  _isComplete : bool;
  _isSolution : bool;
  _isCommutative : bool;
  _isDistributive : bool
}.
#[local] Set Elimination Schemes.

Definition withExpressions (s : Segment) (e : list string) : Segment :=
  mkSegment (operator s) (operandA s) (operandB s) e (value s) (usedDigits s)
    (_isValid s) (_isNumber s) (_isComplete s) (_isSolution s)
    (_isCommutative s) (_isDistributive s).

Definition withValue (s : Segment) (v : Z) : Segment :=
  mkSegment (operator s) (operandA s) (operandB s) (expressions s) v
    (usedDigits s) (_isValid s) (_isNumber s) (_isComplete s) (_isSolution s)
    (_isCommutative s) (_isDistributive s).

Definition withUsedDigits (s : Segment) (u : Z) : Segment :=
  mkSegment (operator s) (operandA s) (operandB s) (expressions s) (value s) u
    (_isValid s) (_isNumber s) (_isComplete s) (_isSolution s)
    (_isCommutative s) (_isDistributive s).

Definition withIsValid (s : Segment) (b : bool) : Segment :=
  mkSegment (operator s) (operandA s) (operandB s) (expressions s) (value s)
    (usedDigits s) b (_isNumber s) (_isComplete s) (_isSolution s)
    (_isCommutative s) (_isDistributive s).

Definition withIsNumber (s : Segment) (b : bool) : Segment :=
  mkSegment (operator s) (operandA s) (operandB s) (expressions s) (value s)
    (usedDigits s) (_isValid s) b (_isComplete s) (_isSolution s)
    (_isCommutative s) (_isDistributive s).

Definition withIsSolution (s : Segment) (b : bool) : Segment :=
  mkSegment (operator s) (operandA s) (operandB s) (expressions s) (value s)
    (usedDigits s) (_isValid s) (_isNumber s) (_isComplete s) b
    (_isCommutative s) (_isDistributive s).

(** [setUsedDigits]: the union of the operands' masks. *)
Definition setUsedDigits (a b : option Segment) : Z :=
  match a with
  | Some sa =>
      match b with
      | Some sb => Z.lor (usedDigits sa) (usedDigits sb)
      | None => usedDigits sa
      end
  | None => 0
  end.

(** The constructor of the base class. *)
Definition newSegment (op : option Operator) (a b : option Segment) : Segment :=
  let used := setUsedDigits a b in
  {| operator := op; operandA := a; operandB := b;
     expressions := []; value := 0; usedDigits := used;
     _isValid := false; _isNumber := false;
     _isComplete := used =? 15;
     _isSolution := false;
     _isCommutative :=
       match op with Some OpAdd | Some OpMul => true | _ => false end;
     _isDistributive :=
       match op with Some OpAdd | Some OpSub => true | _ => false end |}.

Definition haveRepeatingDigits (segmentA segmentB : Segment) : bool :=
  negb (Z.lor (usedDigits segmentA) (usedDigits segmentB)
        =? Z.lxor (usedDigits segmentA) (usedDigits segmentB)).

(** [iterateExpressions]: the consumer sees every pair of operand texts (or
    every text of [operandA] when there is no [operandB]); it is modelled as a
    function threading the segment under construction. *)
Definition iterateExpressions (this : Segment)
    (consumer : string -> option string -> Segment -> Segment) : Segment :=
  match operandA this with
  | Some a =>
      fold_left
        (fun acc expressionA =>
           match operandB this with
           | Some b =>
               fold_left
                 (fun acc' expressionB =>
                    consumer expressionA (Some expressionB) acc')
                 (expressions b) acc
           | None => consumer expressionA None acc
           end)
        (expressions a) this
  | None => this
  end.

Definition isComplete (s : Segment) : bool := _isComplete s.
Definition isCommutative (s : Segment) : bool := _isCommutative s.
Definition isDistributive (s : Segment) : bool := _isDistributive s.
Definition isNumber (s : Segment) : bool := _isNumber s.
Definition isSolution (s : Segment) : bool := _isSolution s.
Definition isValid (s : Segment) : bool := _isValid s.
Definition getValue (s : Segment) : Z := value s.

Definition setValue (s : Segment) (v : Z) : Segment :=
  let s := withValue s v in
  if _isComplete s && (0 <? v) && (v <=? 100)
  then withIsSolution s true
  else s.

Definition addExpression (s : Segment) (text : string) : Segment :=
  withExpressions s (setAdd text (expressions s)).

Definition equals (this segment : Segment) : bool :=
  (value this =? value segment)
  && existsb (fun expression => setHas expression (expressions segment))
       (expressions this).

(** [toString]: the first text of the set, [None] for [undefined]. *)
Definition toString (s : Segment) : option string :=
  match expressions s with
  | e :: _ => Some e
  | [] => None
  end.

(** ** class DigitSegment *)

Definition setDigitIndex (s : Segment) (index : Z) : string + Segment :=
  if (index <? 0) || (3 <? index)
  then inl "Invalid digit index argument."
  else inr (withUsedDigits s (2 ^ index)).

Definition DigitSegment (digit digitIndex : Z) : string + Segment :=
  let s := newSegment None None None in
  let s := addExpression s (toStringZ digit) in
  let s := setValue s digit in
  match setDigitIndex s digitIndex with
  | inl msg => inl msg
  | inr s => inr (withIsNumber (withIsValid s true) true)
  end.

(** ** class Combination *)

Definition Combination_validate (this numberA numberB : Segment) : Segment :=
  withIsValid this
    (negb (haveRepeatingDigits numberA numberB)
     && isNumber numberA
     && isNumber numberB
     && negb (getValue numberA =? 0)
     && negb (isComplete this)).

Definition Combination (numberA numberB : Segment) : Segment :=
  let this := newSegment None (Some numberA) (Some numberB) in
  let this := Combination_validate this numberA numberB in
  if negb (isValid this) then this
  else
    let multiplier :=
      10 ^ Z.of_nat (String.length (toStringZ (getValue numberB))) in
    let value := getValue numberA * multiplier + getValue numberB in
    let this := addExpression this (toStringZ value) in
    let this := setValue this value in
    withIsNumber this true.

(** ** class Addition, class Subtraction *)

Definition Operation_validate (this operandA operandB : Segment) : Segment :=
  withIsValid this
    (negb (haveRepeatingDigits operandA operandB)
     && ((isComplete this && isSolution this) || negb (isComplete this))).

Definition textOf (o : option string) : string :=
  match o with Some t => t | None => "undefined" end.

Definition Addition (operandA operandB : Segment) : Segment :=
  let this := newSegment (Some OpAdd) (Some operandA) (Some operandB) in
  let this := setValue this (getValue operandA + getValue operandB) in
  let this := Operation_validate this operandA operandB in
  if negb (isValid this) then this
  else
    iterateExpressions this
      (fun expressionA expressionB acc =>
         let acc :=
           addExpression acc (expressionA ++ " + " ++ textOf expressionB)%string in
         addExpression acc (textOf expressionB ++ " + " ++ expressionA)%string).

Definition Subtraction (operandA operandB : Segment) : Segment :=
  let this := newSegment (Some OpSub) (Some operandA) (Some operandB) in
  let this := setValue this (getValue operandA - getValue operandB) in
  let this := Operation_validate this operandA operandB in
  if negb (isValid this) then this
  else
    iterateExpressions this
      (fun expressionA expressionB acc =>
         let expressionB :=
           if isDistributive operandB
           then ("(" ++ textOf expressionB ++ ")")%string
           else textOf expressionB in
         addExpression acc (expressionA ++ " - " ++ expressionB)%string).

(** ** class Calculator *)

Record Calculator_state := mkCalculator {
  segments : list Segment;
  solutions : gmap Z (list (option string))
}.

(** What running the constructor gives: the constructed object, an exception
    with the object as it was when thrown, or a loop that has not ended
    within the given number of rounds. *)
Inductive Outcome :=
| Returned (this : Calculator_state)
| Thrown (message : string) (this : Calculator_state)
| OutOfFuel.

Definition addSegments (this : Calculator_state) (new : list Segment)
    : Calculator_state :=
  mkCalculator (segments this ++ new) (solutions this).

Definition addDigit (this : Calculator_state) (digit digitIndex : Z)
    : Outcome :=
  match DigitSegment digit digitIndex with
  | inl msg => Thrown msg this
  | inr s => Returned (mkCalculator (segments this ++ [s]) (solutions this))
  end.

(** [digits.forEach(this.addDigit, this)], from position [digitIndex] on. *)
Fixpoint forEachDigit (this : Calculator_state) (digits : list Z)
    (digitIndex : Z) : Outcome :=
  match digits with
  | [] => Returned this
  | digit :: rest =>
      match addDigit this digit digitIndex with
      | Returned this' => forEachDigit this' rest (digitIndex + 1)
      | other => other
      end
  end.

Definition someValue (l : list Segment) (new : Segment) : bool :=
  existsb (fun old => getValue old =? getValue new) l.

Definition addThreeDigits (this : Calculator_state) (newTwoDigit : Segment)
    (threeDigits : list Segment) : list Segment :=
  fold_left
    (fun threeDigits numberC =>
       let newThreeDigit := Combination newTwoDigit numberC in
       if isValid newThreeDigit && negb (someValue threeDigits newThreeDigit)
       then threeDigits ++ [newThreeDigit]
       else threeDigits)
    (segments this) threeDigits.

Definition numberCombinations (this : Calculator_state)
    : list Segment * list Segment :=
  fold_left
    (fun acc numberA =>
       fold_left
         (fun '(twoDigits, threeDigits) numberB =>
            let newTwoDigit := Combination numberA numberB in
            let twoDigits :=
              if isValid newTwoDigit && negb (someValue twoDigits newTwoDigit)
              then twoDigits ++ [newTwoDigit]
              else twoDigits in
            (twoDigits, addThreeDigits this newTwoDigit threeDigits))
         (segments this) acc)
    (segments this) ([], []).

Definition addNumberCombinations (this : Calculator_state)
    : Calculator_state :=
  let '(twoDigits, threeDigits) := numberCombinations this in
  addSegments this (twoDigits ++ threeDigits).

(** [addSolution] reads and writes [this.solutions] only. *)
Definition addSolution (solutions : gmap Z (list (option string))) (value : Z)
    (text : option string) : gmap Z (list (option string)) :=
  match solutions !! value with
  | Some texts => <[value := texts ++ [text]]> solutions
  | None => <[value := [text]]> solutions
  end.

Definition operationExistsIn (operation : Segment)
    (operationList : list Segment) : bool :=
  existsb (fun segment => equals segment operation) operationList.

(** [addOperation] changes [this.solutions] and the round's list. *)
Definition addOperation (operation : Segment)
    (acc : Calculator_state * list Segment)
    : Calculator_state * list Segment :=
  let '(this, operationList) := acc in
  if isValid operation
     && negb (operationExistsIn operation operationList)
     && negb (operationExistsIn operation (segments this))
  then
    (if isSolution operation
     then
       mkCalculator (segments this)
         (addSolution (solutions this) (getValue operation) (toString operation))
     else this,
     operationList ++ [operation])
  else acc.

(** One pass of the body of the [do ... while] loop, before [addSegments]. *)
Definition round (this : Calculator_state)
    : Calculator_state * list Segment :=
  fold_left
    (fun acc segmentA =>
       fold_left
         (fun acc segmentB =>
            if negb (haveRepeatingDigits segmentA segmentB)
            then
              addOperation (Subtraction segmentA segmentB)
                (addOperation (Addition segmentA segmentB) acc)
            else acc)
         (segments this) acc)
    (segments this) (this, []).

Fixpoint generateOperations (fuel : nat) (this : Calculator_state) : Outcome :=
  match fuel with
  | O => OutOfFuel
  | S fuel' =>
      let '(this, newOperations) := round this in
      let this := addSegments this newOperations in
      if (0 <? Z.of_nat (length newOperations))
      then generateOperations fuel' this
      else Returned this
  end.

(** The constructor. *)
Definition Calculator (fuel : nat) (digits : list Z) : Outcome :=
  let this := mkCalculator [] ∅ in
  if negb (Z.of_nat (length digits) =? 4)
  then Thrown "Invalid digits argument." this
  else
    match forEachDigit this digits 0 with
    | Returned this =>
        generateOperations fuel (addNumberCombinations this)
    | other => other
    end.

Definition getSolutions (this : Calculator_state)
    : gmap Z (list (option string)) :=
  solutions this.

(** ** Arithmetic evaluation of a text

    The reading of an expression text that the properties below refer to:
    decimal numerals, the binary operators [+] and [-] of equal precedence
    associating to the left, a prefix [-], and parentheses.  It belongs to the
    statement of the properties, not to [solution.ts]. *)

Inductive token := TNum (n : Z) | TPlus | TMinus | TLParen | TRParen.

(** The digit a character stands for, from its code (["0"] is 48). *)
Definition digitValue (c : ascii) : option Z :=
  let code := Z.of_nat (nat_of_ascii c) in
  if (48 <=? code) && (code <=? 57) then Some (code - 48) else None.

Definition symbolTokens (c : ascii) : option (list token) :=
  match c with
  | " "%char => Some []
  | "+"%char => Some [TPlus]
  | "-"%char => Some [TMinus]
  | "("%char => Some [TLParen]
  | ")"%char => Some [TRParen]
  | _ => None
  end.

Definition flush (pending : option Z) : list token :=
  match pending with Some n => [TNum n] | None => [] end.

(** The tokens of a text; [pending] is the numeral read so far. *)
Fixpoint lexFrom (pending : option Z) (s : string) : option (list token) :=
  match s with
  | EmptyString => Some (flush pending)
  | String c rest =>
      match digitValue c with
      | Some d =>
          lexFrom (Some (10 * match pending with Some n => n | None => 0 end + d))
            rest
      | None =>
          match symbolTokens c, lexFrom None rest with
          | Some ts, Some more => Some (flush pending ++ ts ++ more)
          | _, _ => None
          end
      end
  end.

(** Where the evaluation stands inside the innermost open parenthesis:
    before an operand, with the value so far and the sign the operand gets,
    or after one. *)
Inductive position := ExpectAtom (acc sign : Z) | AfterAtom (acc : Z).

(** One pass over the tokens; [stack] holds, for every open parenthesis, the
    value and the sign that were pending in front of it. *)
Fixpoint evalTokens (stack : list (Z * Z)) (p : position) (ts : list token)
    : option Z :=
  match ts with
  | [] =>
      match p, stack with
      | AfterAtom acc, [] => Some acc
      | _, _ => None
      end
  | t :: rest =>
      match p, t with
      | ExpectAtom acc sign, TNum n =>
          evalTokens stack (AfterAtom (acc + sign * n)) rest
      | ExpectAtom acc sign, TMinus =>
          evalTokens stack (ExpectAtom acc (- sign)) rest
      | ExpectAtom acc sign, TLParen =>
          evalTokens ((acc, sign) :: stack) (ExpectAtom 0 1) rest
      | AfterAtom acc, TPlus => evalTokens stack (ExpectAtom acc 1) rest
      | AfterAtom acc, TMinus => evalTokens stack (ExpectAtom acc (-1)) rest
      | AfterAtom acc, TRParen =>
          match stack with
          | (acc', sign') :: stack' =>
              evalTokens stack' (AfterAtom (acc' + sign' * acc)) rest
          | [] => None
          end
      | _, _ => None
      end
  end.

Definition evalText (s : string) : option Z :=
  match lexFrom None s with
  | Some ts => evalTokens [] (ExpectAtom 0 1) ts
  | None => None
  end.

(** [n] is written with exactly [k] decimal digits. *)
Definition hasDecimalDigits (n : Z) (k : nat) : Prop :=
  (k = 1%nat /\ 0 <= n < 10)
  \/ (1 < k)%nat /\ 10 ^ (Z.of_nat k - 1) <= n < 10 ^ Z.of_nat k.

(** Every text listed under a key of the solution map evaluates to the key. *)
Definition solutionsEvaluate (sols : gmap Z (list (option string))) : Prop :=
  forall v texts t,
    sols !! v = Some texts -> In t texts ->
    exists text, t = Some text /\ evalText text = Some v.

(** ** Notions used in the statements *)

(** The texts an [Addition] ends with, from the texts of its operands. *)
Definition additionTexts (textsA textsB : list string) : list string :=
  fold_left
    (fun acc expressionA =>
       fold_left
         (fun acc' expressionB =>
            setAdd (expressionB ++ " + " ++ expressionA)%string
              (setAdd (expressionA ++ " + " ++ expressionB)%string acc'))
         textsB acc)
    textsA [].

(** The texts a [Subtraction] ends with; [parens] is [isDistributive] of the
    right operand. *)
Definition subtractionTexts (parens : bool) (textsA textsB : list string)
    : list string :=
  fold_left
    (fun acc expressionA =>
       fold_left
         (fun acc' expressionB =>
            setAdd
              (expressionA ++ " - "
               ++ (if parens then "(" ++ expressionB ++ ")" else expressionB))%string
              acc')
         textsB acc)
    textsA [].

(** The segment [new DigitSegment(digit, digitIndex)] for an index in range
    (the empty base segment stands for the exception otherwise). *)
Definition digitSegmentAt (digit digitIndex : Z) : Segment :=
  match DigitSegment digit digitIndex with
  | inr s => s
  | inl _ => newSegment None None None
  end.

(** The registry after the four [addDigit] calls. *)
Definition seedSegments (d0 d1 d2 d3 : Z) : list Segment :=
  [digitSegmentAt d0 0; digitSegmentAt d1 1; digitSegmentAt d2 2;
   digitSegmentAt d3 3].

(** The segments the four constructors return, on any operands. *)
Inductive Constructed : Segment -> Prop :=
| Constructed_digit digit digitIndex s :
    DigitSegment digit digitIndex = inr s -> Constructed s
| Constructed_combination numberA numberB :
    Constructed (Combination numberA numberB)
| Constructed_addition operandA operandB :
    Constructed (Addition operandA operandB)
| Constructed_subtraction operandA operandB :
    Constructed (Subtraction operandA operandB).

(** The object a run of the constructor returned (the empty object when it
    did not return). *)
Definition returned (o : Outcome) : Calculator_state :=
  match o with
  | Returned this => this
  | _ => mkCalculator [] ∅
  end.

(** Every text under a key is a text of a registered segment of that value,
    and no text is listed twice. *)
Definition distinctTexts (segs : list Segment)
    (sols : gmap Z (list (option string))) : Prop :=
  forall v texts,
    sols !! v = Some texts ->
    NoDup texts
    /\ forall t, In t texts ->
         exists s e,
           In s segs /\ getValue s = v /\ t = Some e /\ In e (expressions s).

(** The number of digit positions in a mask. *)
Definition bitCount (mask : Z) : Z :=
  Z.b2z (Z.testbit mask 0) + Z.b2z (Z.testbit mask 1)
  + Z.b2z (Z.testbit mask 2) + Z.b2z (Z.testbit mask 3).

(** What a round leaves nothing to add to: an operation that is invalid,
    or equal to a segment of the registry [segs] or of the round's list
    [l]. *)
Definition settled (segs l : list Segment) (operation : Segment) : Prop :=
  isValid operation = false
  \/ operationExistsIn operation segs = true
  \/ operationExistsIn operation l = true.

(** Every operation over two segments of [old] is settled by [segs]. *)
Definition closedUnder (segs old : list Segment) : Prop :=
  forall segmentA segmentB operation,
    In segmentA old -> In segmentB old ->
    haveRepeatingDigits segmentA segmentB = false ->
    operation = Addition segmentA segmentB
    \/ operation = Subtraction segmentA segmentB ->
    settled segs [] operation.

(** A registered segment: a mask between 1 and 15 and at least one text. *)
Definition wellFormed (s : Segment) : Prop :=
  1 <= usedDigits s <= 15 /\ expressions s <> [].

(** A token sequence read as one operand of value [v]: wherever an operand
    is expected, with any sign, it leaves the evaluation after an operand
    with [v] taken in under that sign. *)
Definition AtomText (ts : list token) (v : Z) : Prop :=
  forall stack acc sign rest,
    evalTokens stack (ExpectAtom acc sign) (ts ++ rest)
    = evalTokens stack (AfterAtom (acc + sign * v)) rest.

(** A token sequence read as a sum of value [v]: the same, under the sign
    [+] only. *)
Definition SumText (ts : list token) (v : Z) : Prop :=
  forall stack acc rest,
    evalTokens stack (ExpectAtom acc 1) (ts ++ rest)
    = evalTokens stack (AfterAtom (acc + v)) rest.

(** The texts of a segment read as its value, as one operand when the
    segment is neither an addition nor a subtraction; and there is a text. *)
Definition textsEvaluate (s : Segment) : Prop :=
  expressions s <> []
  /\ forall e,
       In e (expressions s) ->
       exists ts,
         lexFrom None e = Some ts
         /\ SumText ts (getValue s)
         /\ (isDistributive s = false -> AtomText ts (getValue s)).

(** ** [getSolutions]: the entries by ascending key *)

(** The comparator handed to [sort] in [getSolutions] and [printSolutions],
    on the keys of two entries. *)
Definition compareKeys (a b : Z) : Z :=
  if b <? a then 1 else if a <? b then -1 else 0.

(** [sort] leaves [x] in front of [y] when the comparator is not positive. *)
Definition entryBefore (x y : Z * list (option string)) : Prop :=
  compareKeys (fst x) (fst y) <= 0.

#[global] Instance entryBefore_dec (x y : Z * list (option string)) :
  Decision (entryBefore x y) := Z_le_dec _ _.

(** The entries [getSolutions] assigns to the object it returns, in the order
    of the assignments: those of the map, sorted by the comparator. *)
Definition getSolutionsEntries (this : Calculator_state)
    : list (Z * list (option string)) :=
  merge_sort entryBefore (map_to_list (solutions this)).

(** The primary texts of the solution segments of value [v] among [segs], in
    the order of [segs]. *)
Definition reportedTexts (segs : list Segment) (v : Z)
    : list (option string) :=
  map toString
    (List.filter (fun s => isSolution s && (getValue s =? v)) segs).

(** What holds of every segment the registry keeps: it is valid and has a
    text, its mask is between 1 and 15, it is complete exactly when the mask
    is 15 and exactly when it is a solution, and it is either a number, never
    complete, or an addition or subtraction. *)
Definition keptSegment (s : Segment) : Prop :=
  isValid s = true
  /\ expressions s <> []
  /\ 1 <= usedDigits s <= 15
  /\ (isComplete s = true <-> usedDigits s = 15)
  /\ isSolution s = isComplete s
  /\ isNumber s = negb (isDistributive s)
  /\ (isNumber s = true -> isComplete s = false).

(** The solution map holds, under each value, the primary texts of the
    solution segments of that value in the order of the registry, and no
    other key. *)
Definition solutionsOfRegistry (segs : list Segment)
    (sols : gmap Z (list (option string))) : Prop :=
  forall v,
    sols !! v
    = match reportedTexts segs v with
      | [] => None
      | texts => Some texts
      end.

(** A segment whose value has at most as many decimal digits as its mask
    has positions, and is not negative when the segment is a number. *)
Definition boundedSegment (s : Segment) : Prop :=
  1 <= usedDigits s <= 15
  /\ Z.abs (getValue s) < 10 ^ bitCount (usedDigits s)
  /\ (isNumber s = true -> 0 <= getValue s).

(** * Properties *)

Example evalText_nested : evalText "1 - (0 - (0 + 0))" = Some 1.
Proof. reflexivity. Qed.

Example evalText_left_assoc : evalText "10 - 3 - 2 + 1" = Some 6.
Proof. reflexivity. Qed.

Example evalText_prefix_minus : evalText "13 - -1 - (2 - 4)" = Some 16.
Proof. reflexivity. Qed.

Example evalText_unbalanced : evalText "1 - (2" = None.
Proof. reflexivity. Qed.

Example toStringZ_examples :
  toStringZ 0 = "0" /\ toStringZ 907 = "907" /\ toStringZ (-45) = "-45".
Proof. repeat split. Qed.

(** ** Digit masks *)

Lemma lor_eq_lxor_iff (a b : Z) : Z.lor a b = Z.lxor a b <-> Z.land a b = 0.
Proof.
  split; intros H.
  - apply Z.bits_inj'. intros n Hn.
    rewrite Z.land_spec, Z.bits_0.
    assert (Hb : Z.testbit (Z.lor a b) n = Z.testbit (Z.lxor a b) n)
      by (now rewrite H).
    rewrite Z.lor_spec, Z.lxor_spec in Hb.
    destruct (Z.testbit a n), (Z.testbit b n); simpl in *; congruence.
  - symmetry. now apply Z.lxor_lor.
Qed.

Lemma haveRepeatingDigits_land (a b : Segment) :
  haveRepeatingDigits a b = negb (Z.land (usedDigits a) (usedDigits b) =? 0).
Proof.
  unfold haveRepeatingDigits. f_equal.
  destruct (Z.eqb_spec (Z.land (usedDigits a) (usedDigits b)) 0) as [E | E].
  - apply Z.eqb_eq. now apply lor_eq_lxor_iff.
  - apply Z.eqb_neq. intros E'. now apply E, lor_eq_lxor_iff.
Qed.

Lemma haveRepeatingDigits_sym (a b : Segment) :
  haveRepeatingDigits a b = haveRepeatingDigits b a.
Proof. now rewrite !haveRepeatingDigits_land, Z.land_comm. Qed.

(** C6: [haveRepeatingDigits] is symmetric, and it is true exactly when the
    bitwise AND of the two [usedDigits] masks is not zero. *)
Theorem C6_haveRepeatingDigits_overlap (a b : Segment) :
  haveRepeatingDigits a b = haveRepeatingDigits b a
  /\ (haveRepeatingDigits a b = true
      <-> Z.land (usedDigits a) (usedDigits b) <> 0).
Proof.
  split; [apply haveRepeatingDigits_sym |].
  rewrite haveRepeatingDigits_land, negb_true_iff. apply Z.eqb_neq.
Qed.

(** ** Decimal numerals *)

Lemma decimalOf_length (fuel : nat) :
  forall (n : Z) (k : nat) (suffix : string),
    n < 10 ^ (Z.of_nat fuel + 1) ->
    hasDecimalDigits n k ->
    String.length (decimalOf fuel n suffix) = (k + String.length suffix)%nat.
Proof.
  induction fuel as [| fuel IH]; intros n k suffix Hfuel Hk.
  - simpl in *. destruct Hk as [[-> _] | [Hk1 [Hlo _]]]; [reflexivity |].
    exfalso.
    assert (10 ^ 1 <= 10 ^ (Z.of_nat k - 1)) by (apply Z.pow_le_mono_r; lia).
    lia.
  - cbn [decimalOf]. destruct (Z.ltb_spec n 10) as [Hlt | Hge].
    + destruct Hk as [[-> _] | [Hk1 [Hlo _]]]; [reflexivity |].
      exfalso.
      assert (10 ^ 1 <= 10 ^ (Z.of_nat k - 1)) by (apply Z.pow_le_mono_r; lia).
      lia.
    + destruct Hk as [[_ ?] | [Hk1 [Hlo Hhi]]]; [lia |].
      destruct k as [| k]; [lia |].
      rewrite (IH (n / 10) k); [simpl; lia | |].
      * replace (Z.of_nat (S fuel) + 1) with (Z.succ (Z.of_nat fuel + 1)) in Hfuel
          by lia.
        rewrite Z.pow_succ_r in Hfuel by lia.
        apply Z.div_lt_upper_bound; lia.
      * replace (Z.of_nat (S k)) with (Z.succ (Z.of_nat k)) in Hhi by lia.
        rewrite Z.pow_succ_r in Hhi by lia.
        assert (Hup : n / 10 < 10 ^ Z.of_nat k)
          by (apply Z.div_lt_upper_bound; lia).
        destruct (Nat.eq_dec k 1%nat) as [-> | Hk2].
        -- left. split; [reflexivity |]. split; [apply Z.div_pos; lia |].
           exact Hup.
        -- right. split; [lia |]. split; [| exact Hup].
           replace (Z.of_nat (S k) - 1) with (Z.succ (Z.of_nat k - 1)) in Hlo
             by lia.
           rewrite Z.pow_succ_r in Hlo by lia.
           apply Z.div_le_lower_bound; lia.
Qed.

Lemma log2_fuel (n : Z) : 0 <= n -> n < 10 ^ (Z.of_nat (Z.to_nat (Z.log2 n)) + 1).
Proof.
  intros Hn. rewrite Z2Nat.id by apply Z.log2_nonneg.
  destruct (Z.eq_dec n 0) as [-> | Hnz]; [reflexivity |].
  assert (Hspec : n < 2 ^ (Z.log2 n + 1)) by (apply Z.log2_spec; lia).
  assert (2 ^ (Z.log2 n + 1) <= 10 ^ (Z.log2 n + 1))
    by (apply Z.pow_le_mono_l; lia).
  lia.
Qed.

Lemma toStringZ_length (n : Z) (k : nat) :
  hasDecimalDigits n k -> String.length (toStringZ n) = k.
Proof.
  intros Hk.
  assert (Hn : 0 <= n).
  { destruct Hk as [[_ ?] | [Hk1 [Hlo _]]]; [lia |].
    assert (0 < 10 ^ (Z.of_nat k - 1)) by (apply Z.pow_pos_nonneg; lia). lia. }
  unfold toStringZ. destruct (Z.ltb_spec n 0) as [? | _]; [lia |].
  rewrite (decimalOf_length _ n k); [simpl; lia | now apply log2_fuel | exact Hk].
Qed.

(** C7, as the code has it: masks [0b0011] and [0b1010] share bit 1, so
    [haveRepeatingDigits] is true for them; it is false for [0b1000] and
    [0b0110] and true for [0b0011] and [0b0010]. *)
Theorem C7_haveRepeatingDigits_masks (a b : Segment) :
  (usedDigits a = 3 /\ usedDigits b = 10 -> haveRepeatingDigits a b = true)
  /\ (usedDigits a = 8 /\ usedDigits b = 6 -> haveRepeatingDigits a b = false)
  /\ (usedDigits a = 3 /\ usedDigits b = 2 -> haveRepeatingDigits a b = true).
Proof.
  unfold haveRepeatingDigits.
  repeat split; intros [-> ->]; reflexivity.
Qed.

Lemma C7_haveRepeatingDigits_masks_witness :
  haveRepeatingDigits
    (Combination (digitSegmentAt 1 0) (digitSegmentAt 2 1))
    (Combination (digitSegmentAt 2 1) (digitSegmentAt 4 3)) = true.
Proof.
  apply (proj1 (C7_haveRepeatingDigits_masks _ _)).
  split; reflexivity.
Defined.

(** The two numbers 12 (positions 0 and 1, mask [0b0011]) and 24 (positions
    1 and 3, mask [0b1010]) of the digits 1 2 3 4 share position 1:
    [haveRepeatingDigits] does not return false for them. *)
Lemma C7_masks_3_and_10_overlap :
  usedDigits (Combination (digitSegmentAt 1 0) (digitSegmentAt 2 1)) = 3
  /\ usedDigits (Combination (digitSegmentAt 2 1) (digitSegmentAt 4 3)) = 10
  /\ haveRepeatingDigits
       (Combination (digitSegmentAt 1 0) (digitSegmentAt 2 1))
       (Combination (digitSegmentAt 2 1) (digitSegmentAt 4 3)) <> false.
Proof. repeat split. discriminate. Qed.

(** ** The constructors in closed form *)

Ltac fields :=
  cbn [operator operandA operandB expressions value usedDigits _isValid
       _isNumber _isComplete _isSolution _isCommutative _isDistributive
       isValid isComplete isNumber isSolution isDistributive isCommutative
       getValue withExpressions withValue withUsedDigits withIsValid
       withIsNumber withIsSolution] in *.

Lemma withExpressions_twice (s : Segment) (e1 e2 : list string) :
  withExpressions (withExpressions s e1) e2 = withExpressions s e2.
Proof. reflexivity. Qed.

Lemma withExpressions_same (s : Segment) : withExpressions s (expressions s) = s.
Proof. now destruct s. Qed.

Lemma iterateExpressions_texts (this a b : Segment)
    (consumer : string -> option string -> Segment -> Segment)
    (f : string -> option string -> list string -> list string) :
  operandA this = Some a ->
  operandB this = Some b ->
  (forall ea eb s, consumer ea eb s = withExpressions s (f ea eb (expressions s))) ->
  iterateExpressions this consumer
  = withExpressions this
      (fold_left
         (fun acc ea =>
            fold_left (fun acc' eb => f ea (Some eb) acc') (expressions b) acc)
         (expressions a) (expressions this)).
Proof.
  intros HA HB Hc. unfold iterateExpressions. rewrite HA, HB.
  assert (Hin : forall ea l s,
             fold_left (fun acc' eb => consumer ea (Some eb) acc') l s
             = withExpressions s
                 (fold_left (fun acc' eb => f ea (Some eb) acc') l (expressions s))).
  { intros ea l. induction l as [| eb l IH]; intros s; simpl.
    - now rewrite withExpressions_same.
    - rewrite IH, Hc. reflexivity. }
  generalize (expressions a) as la. intros la.
  rewrite <- (withExpressions_same this) at 1.
  generalize (expressions this) as e0.
  induction la as [| ea la IH]; intros e0; simpl.
  - reflexivity.
  - rewrite Hin. simpl. apply IH.
Qed.

Lemma Combination_eq (numberA numberB : Segment) :
  let used := Z.lor (usedDigits numberA) (usedDigits numberB) in
  let v := getValue numberA
           * 10 ^ Z.of_nat (String.length (toStringZ (getValue numberB)))
           + getValue numberB in
  Combination numberA numberB
  = if negb (haveRepeatingDigits numberA numberB)
       && isNumber numberA && isNumber numberB
       && negb (getValue numberA =? 0) && negb (used =? 15)
    then mkSegment None (Some numberA) (Some numberB) [toStringZ v] v used
           true true false false false false
    else mkSegment None (Some numberA) (Some numberB) [] 0 used
           false false (used =? 15) false false false.
Proof.
  intros used v. unfold Combination, Combination_validate.
  cbn [isValid _isValid withIsValid isComplete _isComplete newSegment setUsedDigits].
  fold used.
  destruct (negb (haveRepeatingDigits numberA numberB)
            && isNumber numberA && isNumber numberB
            && negb (getValue numberA =? 0) && negb (used =? 15)) eqn:E;
    cbn [negb]; [| reflexivity].
  apply andb_true_iff in E as [_ E]. apply negb_true_iff in E.
  fold v. unfold setValue, addExpression, newSegment, setUsedDigits. fields.
  fold used. rewrite E. reflexivity.
Qed.

Lemma Addition_eq (operandA operandB : Segment) :
  let used := Z.lor (usedDigits operandA) (usedDigits operandB) in
  let v := getValue operandA + getValue operandB in
  let sol := (used =? 15) && (0 <? v) && (v <=? 100) in
  Addition operandA operandB
  = if negb (haveRepeatingDigits operandA operandB)
       && (((used =? 15) && sol) || negb (used =? 15))
    then mkSegment (Some OpAdd) (Some operandA) (Some operandB)
           (additionTexts (expressions operandA) (expressions operandB))
           v used true false (used =? 15) sol true true
    else mkSegment (Some OpAdd) (Some operandA) (Some operandB) [] v used
           false false (used =? 15) sol true true.
Proof.
  intros used v sol. unfold Addition.
  set (this := Operation_validate _ _ _).
  assert (Hthis : this = mkSegment (Some OpAdd) (Some operandA) (Some operandB)
                    [] v used
                    (negb (haveRepeatingDigits operandA operandB)
                     && (((used =? 15) && sol) || negb (used =? 15)))
                    false (used =? 15) sol true true).
  { subst this. unfold Operation_validate, setValue, newSegment, setUsedDigits.
    fields. fold used v. subst sol.
    destruct (used =? 15), (0 <? v), (v <=? 100); reflexivity. }
  rewrite Hthis. cbn [isValid _isValid].
  destruct (negb (haveRepeatingDigits operandA operandB)
            && (((used =? 15) && sol) || negb (used =? 15))) eqn:E;
    cbn [negb]; [| reflexivity].
  rewrite (iterateExpressions_texts _ operandA operandB _
             (fun ea eb acc =>
                setAdd (textOf eb ++ " + " ++ ea)%string
                  (setAdd (ea ++ " + " ++ textOf eb)%string acc)));
    reflexivity.
Qed.

Lemma Subtraction_eq (operandA operandB : Segment) :
  let used := Z.lor (usedDigits operandA) (usedDigits operandB) in
  let v := getValue operandA - getValue operandB in
  let sol := (used =? 15) && (0 <? v) && (v <=? 100) in
  Subtraction operandA operandB
  = if negb (haveRepeatingDigits operandA operandB)
       && (((used =? 15) && sol) || negb (used =? 15))
    then mkSegment (Some OpSub) (Some operandA) (Some operandB)
           (subtractionTexts (isDistributive operandB)
              (expressions operandA) (expressions operandB))
           v used true false (used =? 15) sol false true
    else mkSegment (Some OpSub) (Some operandA) (Some operandB) [] v used
           false false (used =? 15) sol false true.
Proof.
  intros used v sol. unfold Subtraction.
  set (this := Operation_validate _ _ _).
  assert (Hthis : this = mkSegment (Some OpSub) (Some operandA) (Some operandB)
                    [] v used
                    (negb (haveRepeatingDigits operandA operandB)
                     && (((used =? 15) && sol) || negb (used =? 15)))
                    false (used =? 15) sol false true).
  { subst this. unfold Operation_validate, setValue, newSegment, setUsedDigits.
    fields. fold used v. subst sol.
    destruct (used =? 15), (0 <? v), (v <=? 100); reflexivity. }
  rewrite Hthis. cbn [isValid _isValid].
  destruct (negb (haveRepeatingDigits operandA operandB)
            && (((used =? 15) && sol) || negb (used =? 15))) eqn:E;
    cbn [negb]; [| reflexivity].
  rewrite (iterateExpressions_texts _ operandA operandB _
             (fun ea eb acc =>
                setAdd
                  (ea ++ " - "
                   ++ (if isDistributive operandB
                       then "(" ++ textOf eb ++ ")" else textOf eb))%string
                  acc));
    reflexivity.
Qed.

Lemma DigitSegment_eq (digit digitIndex : Z) :
  DigitSegment digit digitIndex
  = if (digitIndex <? 0) || (3 <? digitIndex)
    then inl "Invalid digit index argument."
    else inr (mkSegment None None None [toStringZ digit] digit (2 ^ digitIndex)
                true true false false false false).
Proof.
  unfold DigitSegment, setDigitIndex.
  destruct ((digitIndex <? 0) || (3 <? digitIndex)); reflexivity.
Qed.

(** ** Combination *)

(** C5: a [Combination] is valid exactly when the operands' masks are
    disjoint, both operands are numbers, the left value is not zero and the
    result is not complete (so a concatenation using all four positions is
    never valid); a valid one has the value
    [numberA * 10 ^ (decimal digits of numberB) + numberB] and the numeral of
    that value as its only text. *)
Theorem C5_Combination_valid_value (numberA numberB : Segment) :
  let c := Combination numberA numberB in
  (isValid c = true
   <-> haveRepeatingDigits numberA numberB = false
       /\ isNumber numberA = true /\ isNumber numberB = true
       /\ getValue numberA <> 0
       /\ isComplete c = false)
  /\ (usedDigits c = Z.lor (usedDigits numberA) (usedDigits numberB)
      /\ (usedDigits c = 15 -> isValid c = false))
  /\ (isValid c = true ->
      (forall k : nat,
          hasDecimalDigits (getValue numberB) k ->
          getValue c = getValue numberA * 10 ^ Z.of_nat k + getValue numberB)
      /\ expressions c = [toStringZ (getValue c)]
      /\ isNumber c = true).
Proof.
  intros c. subst c. rewrite Combination_eq.
  set (used := Z.lor (usedDigits numberA) (usedDigits numberB)).
  destruct (negb (haveRepeatingDigits numberA numberB)
            && isNumber numberA && isNumber numberB
            && negb (getValue numberA =? 0) && negb (used =? 15)) eqn:E; fields.
  - repeat (apply andb_true_iff in E as [E ?]).
    rewrite negb_true_iff in *.
    assert (getValue numberA <> 0) by now apply Z.eqb_neq.
    assert (used <> 15) by now apply Z.eqb_neq.
    split; [tauto |]. split; [split; [reflexivity | tauto] |].
    intros _. split; [| split; reflexivity].
    intros k Hk. now rewrite (toStringZ_length _ k Hk).
  - split; [| split; [split; [reflexivity | tauto] | discriminate]].
    split; [discriminate |].
    intros (H1 & H2 & H3 & H4 & H5). exfalso.
    apply Z.eqb_neq in H4. fold (getValue numberA) in E.
    rewrite H1, H2, H3, H4, H5 in E. discriminate.
Qed.

Lemma C5_Combination_valid_value_witness :
  getValue (Combination (digitSegmentAt 1 0) (digitSegmentAt 2 1)) = 12
  /\ expressions (Combination (digitSegmentAt 1 0) (digitSegmentAt 2 1)) = ["12"].
Proof.
  destruct (C5_Combination_valid_value (digitSegmentAt 1 0) (digitSegmentAt 2 1))
    as (_ & _ & H).
  destruct (H eq_refl) as (Hv & He & _).
  split.
  - rewrite (Hv 1%nat); [reflexivity |]. left. split; [reflexivity |].
    change (0 <= 2 < 10). lia.
  - rewrite He. reflexivity.
Defined.

(** ** Loops of the Calculator *)

Lemma fold_left_invariant {A B : Type} (P : A -> Prop) (f : A -> B -> A)
    (l : list B) :
  (forall a b, In b l -> P a -> P (f a b)) ->
  forall a, P a -> P (fold_left f l a).
Proof.
  induction l as [| b l IH]; intros Hstep a Ha; simpl; [exact Ha |].
  apply IH.
  - intros a' b' Hb'. apply Hstep. now right.
  - apply Hstep; [now left | exact Ha].
Qed.

Lemma addOperation_cases (operation : Segment) (this : Calculator_state)
    (operationList : list Segment) :
  addOperation operation (this, operationList) = (this, operationList)
  \/ (isValid operation = true
      /\ operationExistsIn operation operationList = false
      /\ operationExistsIn operation (segments this) = false
      /\ addOperation operation (this, operationList)
         = (if isSolution operation
            then
              mkCalculator (segments this)
                (addSolution (solutions this) (getValue operation)
                   (toString operation))
            else this,
            operationList ++ [operation])).
Proof.
  unfold addOperation.
  destruct (isValid operation) eqn:Hv; [| now left].
  destruct (operationExistsIn operation operationList) eqn:Hl; [now left |].
  destruct (operationExistsIn operation (segments this)) eqn:Hs; [now left |].
  right. repeat split.
Qed.

Lemma addOperation_segments (operation : Segment)
    (acc : Calculator_state * list Segment) :
  segments (fst (addOperation operation acc)) = segments (fst acc).
Proof.
  destruct acc as [this l].
  destruct (addOperation_cases operation this l) as [-> | (_ & _ & _ & ->)];
    [reflexivity |].
  simpl. now destruct (isSolution operation).
Qed.

(** Induction over the pairs a round visits. *)
Lemma round_invariant (this : Calculator_state)
    (P : Calculator_state * list Segment -> Prop) :
  P (this, []) ->
  (forall acc segmentA segmentB operation,
      In segmentA (segments this) -> In segmentB (segments this) ->
      haveRepeatingDigits segmentA segmentB = false ->
      operation = Addition segmentA segmentB
      \/ operation = Subtraction segmentA segmentB ->
      segments (fst acc) = segments this ->
      P acc -> P (addOperation operation acc)) ->
  P (round this) /\ segments (fst (round this)) = segments this.
Proof.
  intros H0 Hstep. unfold round.
  apply (fold_left_invariant
           (fun acc => P acc /\ segments (fst acc) = segments this));
    [| now split].
  intros acc segmentA HA Hacc.
  apply (fold_left_invariant
           (fun acc => P acc /\ segments (fst acc) = segments this));
    [| exact Hacc].
  intros acc' segmentB HB [HP Hseg].
  destruct (haveRepeatingDigits segmentA segmentB) eqn:Hrep; simpl;
    [now split |].
  split.
  - apply (Hstep _ segmentA segmentB); auto.
    + now rewrite addOperation_segments.
    + apply (Hstep _ segmentA segmentB); auto.
  - now rewrite !addOperation_segments.
Qed.

Lemma generateOperations_invariant (I : Calculator_state -> Prop) :
  (forall this, I this -> I (addSegments (fst (round this)) (snd (round this)))) ->
  forall fuel this result,
    I this -> generateOperations fuel this = Returned result -> I result.
Proof.
  intros Hround. induction fuel as [| fuel IH]; intros this result HI Hgen;
    simpl in Hgen; [discriminate |].
  specialize (Hround this HI).
  destruct (round this) as [this' newOperations]; simpl in *.
  destruct (0 <? Z.of_nat (length newOperations)).
  - now apply (IH _ _ Hround).
  - now inversion Hgen; subst.
Qed.

Lemma generateOperations_no_throw (fuel : nat) :
  forall this message st, generateOperations fuel this <> Thrown message st.
Proof.
  induction fuel as [| fuel IH]; intros this message st; simpl; [discriminate |].
  destruct (round this) as [this' newOperations].
  destruct (0 <? Z.of_nat (length newOperations)); [apply IH | discriminate].
Qed.

Lemma forEachDigit_four (d0 d1 d2 d3 : Z) :
  forEachDigit (mkCalculator [] ∅) [d0; d1; d2; d3] 0
  = Returned (mkCalculator (seedSegments d0 d1 d2 d3) ∅).
Proof. reflexivity. Qed.

Lemma length_four (digits : list Z) :
  length digits = 4%nat -> exists d0 d1 d2 d3, digits = [d0; d1; d2; d3].
Proof.
  destruct digits as [| d0 [| d1 [| d2 [| d3 [| d4 rest]]]]]; try discriminate.
  intros _. now exists d0, d1, d2, d3.
Qed.

Lemma Calculator_four (fuel : nat) (d0 d1 d2 d3 : Z) :
  Calculator fuel [d0; d1; d2; d3]
  = generateOperations fuel
      (addNumberCombinations (mkCalculator (seedSegments d0 d1 d2 d3) ∅)).
Proof. reflexivity. Qed.

Lemma Calculator_not_four (fuel : nat) (digits : list Z) :
  length digits <> 4%nat ->
  Calculator fuel digits = Thrown "Invalid digits argument." (mkCalculator [] ∅).
Proof.
  intros Hlen. unfold Calculator.
  destruct (Z.eqb_spec (Z.of_nat (length digits)) 4) as [E | E]; [lia |].
  reflexivity.
Qed.

Lemma Combination_isNumber (numberA numberB : Segment) :
  isNumber (Combination numberA numberB) = isValid (Combination numberA numberB).
Proof.
  rewrite Combination_eq.
  now destruct (negb (haveRepeatingDigits numberA numberB) && _ && _ && _ && _).
Qed.

Lemma Combination_valid_left (numberA numberB : Segment) :
  isValid (Combination numberA numberB) = true -> isNumber numberA = true.
Proof.
  rewrite Combination_eq.
  destruct (isNumber numberA); [reflexivity |].
  now rewrite andb_false_r.
Qed.

(** ** A property of segments that every constructor keeps holds of the
    whole registry *)

Section RegistryInvariant.

Variable G : Segment -> Prop.

Hypothesis G_digit :
  forall digit digitIndex,
    0 <= digitIndex <= 3 -> G (digitSegmentAt digit digitIndex).
Hypothesis G_combination :
  forall numberA numberB,
    G numberA -> G numberB ->
    isValid (Combination numberA numberB) = true ->
    G (Combination numberA numberB).
Hypothesis G_addition :
  forall operandA operandB,
    G operandA -> G operandB ->
    haveRepeatingDigits operandA operandB = false ->
    isValid (Addition operandA operandB) = true ->
    G (Addition operandA operandB).
Hypothesis G_subtraction :
  forall operandA operandB,
    G operandA -> G operandB ->
    haveRepeatingDigits operandA operandB = false ->
    isValid (Subtraction operandA operandB) = true ->
    G (Subtraction operandA operandB).

Lemma seedSegments_G (d0 d1 d2 d3 : Z) : Forall G (seedSegments d0 d1 d2 d3).
Proof. repeat constructor; apply G_digit; lia. Qed.

Lemma addThreeDigits_G (this : Calculator_state) (numberA numberB : Segment)
    (threeDigits : list Segment) :
  Forall G (segments this) -> G numberA -> G numberB ->
  Forall G threeDigits ->
  Forall G (addThreeDigits this (Combination numberA numberB) threeDigits).
Proof.
  intros Hsegs HA HB H3. unfold addThreeDigits.
  apply fold_left_invariant; [| exact H3].
  intros acc numberC HC Hacc.
  destruct (isValid (Combination (Combination numberA numberB) numberC))
    eqn:Hv; simpl; [| exact Hacc].
  destruct (negb (someValue acc _)); [| exact Hacc].
  apply Forall_app. split; [exact Hacc |].
  constructor; [| constructor].
  apply G_combination; [| | exact Hv].
  - apply G_combination; [exact HA | exact HB |].
    rewrite <- Combination_isNumber. now apply Combination_valid_left in Hv.
  - rewrite List.Forall_forall in Hsegs. now apply Hsegs.
Qed.

Lemma numberCombinations_G (this : Calculator_state) :
  Forall G (segments this) ->
  Forall G (fst (numberCombinations this))
  /\ Forall G (snd (numberCombinations this)).
Proof.
  intros Hsegs. unfold numberCombinations.
  apply (fold_left_invariant
           (fun acc => Forall G (fst acc) /\ Forall G (snd acc)));
    [| split; constructor].
  intros acc numberA HA Hacc.
  apply (fold_left_invariant
           (fun acc => Forall G (fst acc) /\ Forall G (snd acc)));
    [| exact Hacc].
  intros [twoDigits threeDigits] numberB HB [H2 H3]. simpl in *.
  rewrite List.Forall_forall in Hsegs.
  split.
  - destruct (isValid (Combination numberA numberB)) eqn:Hv; simpl;
      [| exact H2].
    destruct (negb (someValue twoDigits _)); [| exact H2].
    apply Forall_app. split; [exact H2 |].
    constructor; [| constructor]. apply G_combination; auto.
  - apply addThreeDigits_G; auto. now apply List.Forall_forall.
Qed.

Lemma addNumberCombinations_G (this : Calculator_state) :
  Forall G (segments this) -> Forall G (segments (addNumberCombinations this)).
Proof.
  intros Hsegs. unfold addNumberCombinations.
  destruct (numberCombinations_G this Hsegs) as [H2 H3].
  destruct (numberCombinations this) as [twoDigits threeDigits]. simpl in *.
  repeat (apply Forall_app; split); assumption.
Qed.

Lemma round_G (this : Calculator_state) :
  Forall G (segments this) -> Forall G (snd (round this)).
Proof.
  intros Hsegs.
  apply (round_invariant this (fun acc => Forall G (snd acc)));
    [constructor |].
  intros [this' l] segmentA segmentB operation HA HB Hrep Hop _ Hl.
  simpl in Hl.
  destruct (addOperation_cases operation this' l) as [-> | (Hv & _ & _ & ->)];
    [exact Hl |].
  simpl. apply Forall_app. split; [exact Hl |].
  constructor; [| constructor].
  rewrite List.Forall_forall in Hsegs.
  destruct Hop as [-> | ->]; [apply G_addition | apply G_subtraction]; auto.
Qed.

Lemma generateOperations_G (fuel : nat) (this result : Calculator_state) :
  Forall G (segments this) ->
  generateOperations fuel this = Returned result ->
  Forall G (segments result).
Proof.
  apply (generateOperations_invariant (fun st => Forall G (segments st))).
  intros st Hst. simpl. apply Forall_app. split.
  - now rewrite (proj2 (round_invariant st (fun _ => True) I
                           (fun _ _ _ _ _ _ _ _ _ _ => I))).
  - now apply round_G.
Qed.

Lemma Calculator_G (fuel : nat) (digits : list Z) (result : Calculator_state) :
  Calculator fuel digits = Returned result -> Forall G (segments result).
Proof.
  intros Hres.
  destruct (Nat.eq_dec (length digits) 4%nat) as [Hlen | Hlen].
  - destruct (length_four digits Hlen) as (d0 & d1 & d2 & d3 & ->).
    rewrite Calculator_four in Hres.
    refine (generateOperations_G _ _ _ (addNumberCombinations_G _ _) Hres).
    apply seedSegments_G.
  - rewrite Calculator_not_four in Hres by exact Hlen. discriminate.
Qed.

(** The same for a property of the registry together with the solution
    map that every accepted operation keeps. *)

Variable J : list Segment -> gmap Z (list (option string)) -> Prop.

Hypothesis J_empty : forall segs, J segs ∅.
Hypothesis J_accept :
  forall segs sols l operation segmentA segmentB,
    Forall G segs -> In segmentA segs -> In segmentB segs ->
    haveRepeatingDigits segmentA segmentB = false ->
    operation = Addition segmentA segmentB
    \/ operation = Subtraction segmentA segmentB ->
    isValid operation = true ->
    operationExistsIn operation l = false ->
    operationExistsIn operation segs = false ->
    J (segs ++ l) sols ->
    J (segs ++ l ++ [operation])
      (if isSolution operation
       then addSolution sols (getValue operation) (toString operation)
       else sols).

Lemma round_J (this : Calculator_state) :
  Forall G (segments this) ->
  J (segments this) (solutions this) ->
  J (segments this ++ snd (round this)) (solutions (fst (round this))).
Proof.
  intros HG HJ.
  apply (round_invariant this
           (fun acc => J (segments this ++ snd acc) (solutions (fst acc)))).
  - simpl. now rewrite app_nil_r.
  - intros [this' l] segmentA segmentB operation HA HB Hrep Hop Hseg Hacc.
    simpl in Hseg, Hacc.
    destruct (addOperation_cases operation this' l)
      as [-> | (Hv & Hl & Hs & ->)]; [exact Hacc |].
    rewrite Hseg in Hs. simpl.
    assert (Hsol : solutions
                     (if isSolution operation
                      then mkCalculator (segments this')
                             (addSolution (solutions this')
                                (getValue operation) (toString operation))
                      else this')
                   = if isSolution operation
                     then addSolution (solutions this') (getValue operation)
                            (toString operation)
                     else solutions this')
      by now destruct (isSolution operation).
    rewrite Hsol. now apply (J_accept _ _ _ _ segmentA segmentB).
Qed.

Lemma Calculator_J (fuel : nat) (digits : list Z) (result : Calculator_state) :
  Calculator fuel digits = Returned result ->
  Forall G (segments result) /\ J (segments result) (solutions result).
Proof.
  intros Hres. split; [now apply (Calculator_G fuel digits) |].
  destruct (Nat.eq_dec (length digits) 4%nat) as [Hlen | Hlen].
  - destruct (length_four digits Hlen) as (d0 & d1 & d2 & d3 & ->).
    rewrite Calculator_four in Hres.
    refine (proj2 (generateOperations_invariant
              (fun st => Forall G (segments st) /\ J (segments st) (solutions st))
              _ fuel _ result _ Hres)).
    + intros st [HG HJ]. simpl.
      pose proof (round_invariant st (fun _ => True) I
                    (fun _ _ _ _ _ _ _ _ _ _ => I)) as [_ Hseg].
      rewrite Hseg. split.
      * apply Forall_app. split; [exact HG | now apply round_G].
      * now apply round_J.
    + split.
      * apply addNumberCombinations_G, seedSegments_G.
      * unfold addNumberCombinations.
        destruct (numberCombinations _) as [twoDigits threeDigits].
        apply J_empty.
  - rewrite Calculator_not_four in Hres by exact Hlen. discriminate.
Qed.

End RegistryInvariant.

(** ** Solutions and validity *)

Lemma digitSegmentAt_eq (digit digitIndex : Z) :
  0 <= digitIndex <= 3 ->
  digitSegmentAt digit digitIndex
  = mkSegment None None None [toStringZ digit] digit (2 ^ digitIndex)
      true true false false false false.
Proof.
  intros Hi. unfold digitSegmentAt. rewrite DigitSegment_eq.
  destruct (Z.ltb_spec digitIndex 0); [lia |].
  destruct (Z.ltb_spec 3 digitIndex); [lia |]. reflexivity.
Qed.

Lemma range_bool (c : bool) (v : Z) :
  c && (0 <? v) && (v <=? 100) = true <-> c = true /\ 1 <= v <= 100.
Proof.
  rewrite !andb_true_iff, Z.ltb_lt, Z.leb_le. intuition lia.
Qed.

Lemma Constructed_isSolution (s : Segment) :
  Constructed s ->
  (isSolution s = true <-> isComplete s = true /\ 1 <= getValue s <= 100).
Proof.
  intros [digit digitIndex s' Hd | numberA numberB | operandA operandB
          | operandA operandB].
  - rewrite DigitSegment_eq in Hd.
    destruct ((digitIndex <? 0) || (3 <? digitIndex)); [discriminate |].
    inversion Hd; subst. fields. intuition discriminate.
  - rewrite Combination_eq.
    destruct (negb (haveRepeatingDigits numberA numberB) && _ && _ && _ && _);
      fields; [intuition discriminate |].
    split; [discriminate | lia].
  - rewrite Addition_eq.
    destruct (negb (haveRepeatingDigits operandA operandB) && _); fields;
      apply range_bool.
  - rewrite Subtraction_eq.
    destruct (negb (haveRepeatingDigits operandA operandB) && _); fields;
      apply range_bool.
Qed.

Lemma Operation_isValid (operandA operandB operation : Segment) :
  operation = Addition operandA operandB
  \/ operation = Subtraction operandA operandB ->
  isValid operation
  = negb (haveRepeatingDigits operandA operandB)
    && ((isComplete operation && isSolution operation)
        || negb (isComplete operation)).
Proof.
  intros [-> | ->]; [rewrite Addition_eq | rewrite Subtraction_eq];
    destruct (negb (haveRepeatingDigits operandA operandB) && _) eqn:E;
    fields; now rewrite E.
Qed.

Lemma Operation_Constructed (operandA operandB operation : Segment) :
  operation = Addition operandA operandB
  \/ operation = Subtraction operandA operandB ->
  Constructed operation.
Proof. intros [-> | ->]; constructor. Qed.

Lemma addSolution_lookup (sols : gmap Z (list (option string))) (v k : Z)
    (t : option string) :
  addSolution sols v t !! k
  = if decide (v = k) then Some (default [] (sols !! v) ++ [t]) else sols !! k.
Proof.
  unfold addSolution.
  destruct (sols !! v) as [texts |] eqn:E; rewrite lookup_insert;
    destruct (decide (v = k)); reflexivity.
Qed.

Lemma addOperation_invalid (operation : Segment)
    (acc : Calculator_state * list Segment) :
  isValid operation = false -> addOperation operation acc = acc.
Proof.
  intros Hv. destruct acc as [this l]. unfold addOperation. now rewrite Hv.
Qed.

(** C2: every key of the returned solution map lies in [1, 100]; a segment
    is a solution exactly when it is complete with a value in [1, 100]; only
    solutions reach the map; a complete operation of value 0 or 101 leaves the
    round's list and the map as they were. *)
Theorem C2_solution_keys_in_range :
  (forall fuel digits result v,
      Calculator fuel digits = Returned result ->
      is_Some (getSolutions result !! v) -> 1 <= v <= 100)
  /\ (forall s,
        Constructed s ->
        (isSolution s = true <-> isComplete s = true /\ 1 <= getValue s <= 100))
  /\ (forall operation acc,
        isSolution operation = false ->
        solutions (fst (addOperation operation acc)) = solutions (fst acc))
  /\ (forall operandA operandB operation acc,
        operation = Addition operandA operandB
        \/ operation = Subtraction operandA operandB ->
        isComplete operation = true ->
        getValue operation = 0 \/ getValue operation = 101 ->
        addOperation operation acc = acc).
Proof.
  split; [| split; [| split]].
  - intros fuel digits result v Hres.
    apply Calculator_J
      with (G := fun _ => True)
           (J := fun _ sols => forall k, is_Some (sols !! k) -> 1 <= k <= 100)
      in Hres; auto.
    + now apply (proj2 Hres).
    + intros _ k [x Hx]. now rewrite lookup_empty in Hx.
    + intros segs sols l operation segmentA segmentB _ _ _ _ Hop _ _ _ HJ k.
      destruct (isSolution operation) eqn:Hsol; [| apply HJ].
      rewrite addSolution_lookup.
      destruct (decide (getValue operation = k)) as [<- | _]; [| apply HJ].
      intros _.
      now apply (Constructed_isSolution _
                   (Operation_Constructed _ _ _ Hop)) in Hsol.
  - exact Constructed_isSolution.
  - intros operation [this l] Hsol.
    destruct (addOperation_cases operation this l) as [-> | (_ & _ & _ & ->)];
      [reflexivity |].
    now rewrite Hsol.
  - intros operandA operandB operation acc Hop Hc Hv.
    apply addOperation_invalid.
    rewrite (Operation_isValid _ _ _ Hop), Hc.
    destruct (isSolution operation) eqn:Hsol;
      [| now rewrite andb_false_r].
    apply (Constructed_isSolution _ (Operation_Constructed _ _ _ Hop)) in Hsol.
    lia.
Qed.

Lemma C2_solution_keys_in_range_witness :
  is_Some (getSolutions (returned (Calculator 4 [1; 0; 0; 0])) !! 10)
  /\ 1 <= 10 <= 100.
Proof.
  assert (Hsome : is_Some (getSolutions (returned (Calculator 4 [1; 0; 0; 0])) !! 10))
    by (vm_compute; eauto).
  split; [exact Hsome |].
  apply (proj1 C2_solution_keys_in_range 4%nat [1; 0; 0; 0]
           (returned (Calculator 4 [1; 0; 0; 0])) 10);
    [vm_compute; reflexivity | exact Hsome].
Defined.

Lemma numberCombinations_valid (this : Calculator_state) :
  Forall (fun s => isValid s = true)
    (fst (numberCombinations this) ++ snd (numberCombinations this)).
Proof.
  apply Forall_app. unfold numberCombinations.
  apply (fold_left_invariant
           (fun acc => Forall (fun s => isValid s = true) (fst acc)
                       /\ Forall (fun s => isValid s = true) (snd acc)));
    [| split; constructor].
  intros acc numberA _ Hacc.
  apply (fold_left_invariant
           (fun acc => Forall (fun s => isValid s = true) (fst acc)
                       /\ Forall (fun s => isValid s = true) (snd acc)));
    [| exact Hacc].
  intros [twoDigits threeDigits] numberB _ [H2 H3]. simpl in *. split.
  - destruct (isValid (Combination numberA numberB)) eqn:Hv; simpl; [| exact H2].
    destruct (negb (someValue twoDigits _)); [| exact H2].
    apply Forall_app. split; [exact H2 | now repeat constructor].
  - unfold addThreeDigits. apply fold_left_invariant; [| exact H3].
    intros acc' numberC _ Hacc'.
    destruct (isValid (Combination (Combination numberA numberB) numberC))
      eqn:Hv; simpl; [| exact Hacc'].
    destruct (negb (someValue acc' _)); [| exact Hacc'].
    apply Forall_app. split; [exact Hacc' | now repeat constructor].
Qed.

(** C4: an [Addition] or [Subtraction] is valid exactly when its operands'
    masks are disjoint and, if it is complete, its value is in [1, 100]; an
    invalid operation changes neither the round's list nor the solution map,
    an invalid [Combination] is not kept, the registry holds valid segments
    only, and none of this throws. *)
Theorem C4_operation_validity :
  (forall operandA operandB operation,
      operation = Addition operandA operandB
      \/ operation = Subtraction operandA operandB ->
      (isValid operation = true
       <-> haveRepeatingDigits operandA operandB = false
           /\ (isComplete operation = true -> 1 <= getValue operation <= 100)))
  /\ (forall operation acc,
        isValid operation = false -> addOperation operation acc = acc)
  /\ (forall this,
        Forall (fun s => isValid s = true)
          (fst (numberCombinations this) ++ snd (numberCombinations this)))
  /\ (forall fuel digits result,
        Calculator fuel digits = Returned result ->
        Forall (fun s => isValid s = true) (segments result))
  /\ (forall fuel digits message st,
        length digits = 4%nat -> Calculator fuel digits <> Thrown message st).
Proof.
  split; [| split; [| split; [| split]]].
  - intros operandA operandB operation Hop.
    rewrite (Operation_isValid _ _ _ Hop).
    pose proof (Constructed_isSolution _ (Operation_Constructed _ _ _ Hop))
      as Hsol.
    destruct (haveRepeatingDigits operandA operandB); simpl;
      [intuition discriminate |].
    destruct (isComplete operation), (isSolution operation); simpl;
      intuition (try discriminate).
  - exact addOperation_invalid.
  - exact numberCombinations_valid.
  - intros fuel digits result Hres.
    apply Calculator_G with (G := fun s => isValid s = true) in Hres; auto.
    intros digit digitIndex Hi. now rewrite digitSegmentAt_eq.
  - intros fuel digits message st Hlen.
    destruct (length_four digits Hlen) as (d0 & d1 & d2 & d3 & ->).
    rewrite Calculator_four. apply generateOperations_no_throw.
Qed.

Lemma C4_operation_validity_witness :
  isValid (Subtraction (digitSegmentAt 1 0) (digitSegmentAt 2 1)) = true
  /\ getValue (Subtraction (digitSegmentAt 1 0) (digitSegmentAt 2 1)) = -1.
Proof.
  split; [| reflexivity].
  apply (proj1 C4_operation_validity (digitSegmentAt 1 0) (digitSegmentAt 2 1));
    [now right |].
  split; [reflexivity | discriminate].
Defined.

(** ** Exceptions *)

Lemma forEachDigit_in_range (digits : list Z) :
  forall this digitIndex,
    0 <= digitIndex ->
    digitIndex + Z.of_nat (length digits) <= 4 ->
    exists result, forEachDigit this digits digitIndex = Returned result.
Proof.
  induction digits as [| digit rest IH]; intros this digitIndex Hlo Hhi;
    simpl in *; [now exists this |].
  unfold addDigit. rewrite DigitSegment_eq.
  destruct (Z.ltb_spec digitIndex 0); [lia |].
  destruct (Z.ltb_spec 3 digitIndex); [lia |]. simpl.
  apply IH; lia.
Qed.

(** C10: on an array of four numbers the constructor never throws, so the
    index check of [setDigitIndex] (which fires exactly for an index outside
    [0, 3]) is never hit: [forEach] hands [addDigit] the positions 0 to 3.
    The only exception is the one of the length check, raised exactly when
    the array has not four elements, with the registry still empty. *)
Theorem C10_only_length_check_throws (fuel : nat) (digits : list Z) :
  (forall digit digitIndex,
      (exists message, DigitSegment digit digitIndex = inl message)
      <-> digitIndex < 0 \/ 3 < digitIndex)
  /\ (length digits = 4%nat ->
      (exists this, forEachDigit (mkCalculator [] ∅) digits 0 = Returned this)
      /\ forall message st, Calculator fuel digits <> Thrown message st)
  /\ (forall message st,
        Calculator fuel digits = Thrown message st ->
        message = "Invalid digits argument."
        /\ length digits <> 4%nat /\ segments st = [])
  /\ (length digits <> 4%nat ->
      Calculator fuel digits
      = Thrown "Invalid digits argument." (mkCalculator [] ∅)).
Proof.
  assert (Hfour : length digits = 4%nat ->
                  forall message st, Calculator fuel digits <> Thrown message st).
  { intros Hlen message st.
    destruct (length_four digits Hlen) as (d0 & d1 & d2 & d3 & ->).
    rewrite Calculator_four. apply generateOperations_no_throw. }
  split; [| split; [| split]].
  - intros digit digitIndex. rewrite DigitSegment_eq.
    destruct (Z.ltb_spec digitIndex 0); simpl.
    + split; [lia | eauto].
    + destruct (Z.ltb_spec 3 digitIndex).
      * split; [lia | eauto].
      * split; [intros [message Hm]; discriminate | lia].
  - intros Hlen. split; [| now apply Hfour].
    apply forEachDigit_in_range; lia.
  - intros message st Hthrow.
    destruct (Nat.eq_dec (length digits) 4%nat) as [Hlen | Hlen].
    + now apply Hfour in Hthrow.
    + rewrite Calculator_not_four in Hthrow by exact Hlen.
      now inversion Hthrow; subst.
  - now apply Calculator_not_four.
Qed.

Lemma C10_only_length_check_throws_witness :
  (exists this, forEachDigit (mkCalculator [] ∅) [7; 7; 7; 7] 0 = Returned this)
  /\ Calculator 4 [1; 2; 3]
     = Thrown "Invalid digits argument." (mkCalculator [] ∅).
Proof.
  split.
  - exact (proj1 (proj1 (proj2 (C10_only_length_check_throws 4 [7; 7; 7; 7]))
                    eq_refl)).
  - apply (proj2 (proj2 (proj2 (C10_only_length_check_throws 4 [1; 2; 3])))).
    simpl. lia.
Defined.

(** ** The input 0 0 0 0 *)

Lemma zero_operation (operandA operandB operation : Segment) :
  getValue operandA = 0 -> getValue operandB = 0 ->
  operation = Addition operandA operandB
  \/ operation = Subtraction operandA operandB ->
  getValue operation = 0 /\ isSolution operation = false.
Proof.
  intros HA HB Hop.
  assert (Hv : getValue operation = 0).
  { destruct Hop as [-> | ->];
      [rewrite Addition_eq | rewrite Subtraction_eq];
      destruct (negb (haveRepeatingDigits operandA operandB) && _); fields; lia. }
  split; [exact Hv |].
  destruct (isSolution operation) eqn:Hsol; [| reflexivity].
  apply (Constructed_isSolution _ (Operation_Constructed _ _ _ Hop)) in Hsol.
  lia.
Qed.

Lemma Combination_zero_left (numberA numberB : Segment) :
  getValue numberA = 0 ->
  isValid (Combination numberA numberB) = false
  /\ getValue (Combination numberA numberB) = 0.
Proof.
  intros H0. rewrite Combination_eq.
  destruct (negb (haveRepeatingDigits numberA numberB) && _ && _ && _ && _)
    eqn:E; fields; [| now split].
  apply andb_true_iff in E as [E _]. apply andb_true_iff in E as [_ E].
  rewrite H0 in E. discriminate.
Qed.

(** C8: on the digits 0 0 0 0 every candidate [Combination] has a left
    operand of value 0 and is invalid, so the registry starts from the four
    digit segments alone; every segment of the final registry has value 0 and
    is not a solution, no operation over it is, and the solution map is
    empty. *)
Theorem C8_four_zeros :
  forEachDigit (mkCalculator [] ∅) [0; 0; 0; 0] 0
  = Returned (mkCalculator (seedSegments 0 0 0 0) ∅)
  /\ (forall numberA numberB numberC,
        In numberA (seedSegments 0 0 0 0) ->
        (getValue numberA = 0
         /\ isValid (Combination numberA numberB) = false)
        /\ (getValue (Combination numberA numberB) = 0
            /\ isValid (Combination (Combination numberA numberB) numberC)
               = false))
  /\ addNumberCombinations (mkCalculator (seedSegments 0 0 0 0) ∅)
     = mkCalculator (seedSegments 0 0 0 0) ∅
  /\ exists result,
       Calculator 4 [0; 0; 0; 0] = Returned result
       /\ getSolutions result = ∅
       /\ Forall (fun s => getValue s = 0 /\ isSolution s = false)
            (segments result)
       /\ forall operandA operandB operation,
            In operandA (segments result) -> In operandB (segments result) ->
            operation = Addition operandA operandB
            \/ operation = Subtraction operandA operandB ->
            getValue operation = 0 /\ isSolution operation = false.
Proof.
  split; [vm_compute; reflexivity |].
  split; [| split; [vm_compute; reflexivity |]].
  - intros numberA numberB numberC HA.
    assert (H0 : getValue numberA = 0).
    { unfold seedSegments in HA.
      destruct HA as [<- | [<- | [<- | [<- | []]]]]; vm_compute; reflexivity. }
    destruct (Combination_zero_left numberA numberB H0) as [HAB HvAB].
    destruct (Combination_zero_left (Combination numberA numberB) numberC HvAB)
      as [HABC _].
    now repeat split.
  - exists (returned (Calculator 4 [0; 0; 0; 0])).
    assert (Hall : Forall (fun s => getValue s = 0 /\ isSolution s = false)
                     (segments (returned (Calculator 4 [0; 0; 0; 0])))).
    { apply List.Forall_forall. intros s Hs.
      assert (Hb : forallb (fun s => (getValue s =? 0) && negb (isSolution s))
                     (segments (returned (Calculator 4 [0; 0; 0; 0]))) = true)
        by (vm_compute; reflexivity).
      rewrite forallb_forall in Hb. specialize (Hb s Hs). clear Hs.
      apply andb_true_iff in Hb as [Hv Hsol].
      split; [apply Z.eqb_eq, Hv | apply negb_true_iff, Hsol]. }
    split; [vm_compute; reflexivity |].
    split; [vm_compute; reflexivity |].
    split; [exact Hall |].
    intros operandA operandB operation HA HB Hop.
    rewrite List.Forall_forall in Hall.
    apply (zero_operation operandA operandB);
      [exact (proj1 (Hall _ HA)) | exact (proj1 (Hall _ HB)) | exact Hop].
Qed.

Lemma C8_four_zeros_witness :
  isValid (Combination (digitSegmentAt 0 0) (digitSegmentAt 0 1)) = false.
Proof.
  destruct C8_four_zeros as (_ & H & _).
  apply (H (digitSegmentAt 0 0) (digitSegmentAt 0 1) (digitSegmentAt 0 2)).
  left. reflexivity.
Defined.

(** ** Text sets *)

Lemma setHas_In (text : string) (set : list string) :
  setHas text set = true <-> In text set.
Proof.
  unfold setHas. rewrite existsb_exists. split.
  - intros (x & Hx & Heq). apply String.eqb_eq in Heq. now subst.
  - intros Hin. exists text. split; [exact Hin | apply String.eqb_refl].
Qed.

Lemma setAdd_In (text t : string) (set : list string) :
  In t (setAdd text set) <-> In t set \/ t = text.
Proof.
  unfold setAdd. destruct (setHas text set) eqn:E.
  - apply setHas_In in E. split; [now left | intros [H | ->]; assumption].
  - rewrite in_app_iff. simpl. intuition.
Qed.

Section PairFold.

Variable g : string -> string -> list string -> list string.
Variable textsOf : string -> string -> list string.
Hypothesis g_In :
  forall a b acc t, In t (g a b acc) <-> In t acc \/ In t (textsOf a b).

Lemma inner_fold_In (a : string) (textsB : list string) :
  forall init t,
    In t (fold_left (fun acc b => g a b acc) textsB init)
    <-> In t init \/ exists b, In b textsB /\ In t (textsOf a b).
Proof.
  induction textsB as [| b textsB IH]; intros init t; simpl.
  - split; [now left | intros [H | (b & [] & _)]; exact H].
  - rewrite IH, g_In. split.
    + intros [[H | H] | (b' & Hb' & H)]; eauto.
    + intros [H | (b' & [<- | Hb'] & H)]; eauto.
Qed.

Lemma pair_fold_In (textsA textsB : list string) :
  forall init t,
    In t (fold_left
            (fun acc a => fold_left (fun acc' b => g a b acc') textsB acc)
            textsA init)
    <-> In t init
        \/ exists a b, In a textsA /\ In b textsB /\ In t (textsOf a b).
Proof.
  induction textsA as [| a textsA IH]; intros init t; simpl.
  - split; [now left | intros [H | (a & b & [] & _)]; exact H].
  - rewrite IH, inner_fold_In. split.
    + intros [[H | (b & Hb & H)] | (a' & b & Ha' & Hb & H)]; eauto 8.
    + intros [H | (a' & b & [<- | Ha'] & Hb & H)]; eauto 8.
Qed.

End PairFold.

Lemma additionTexts_In (textsA textsB : list string) (t : string) :
  In t (additionTexts textsA textsB)
  <-> exists a b,
        In a textsA /\ In b textsB
        /\ (t = (a ++ " + " ++ b)%string \/ t = (b ++ " + " ++ a)%string).
Proof.
  unfold additionTexts.
  rewrite (pair_fold_In _
             (fun a b => [(a ++ " + " ++ b)%string; (b ++ " + " ++ a)%string])).
  - simpl. split.
    + intros [[] | (a & b & Ha & Hb & H)]. exists a, b. intuition.
    + intros (a & b & Ha & Hb & H). right. exists a, b. intuition.
  - intros a b acc t'. rewrite !setAdd_In. simpl. intuition.
Qed.

Lemma subtractionTexts_In (parens : bool) (textsA textsB : list string)
    (t : string) :
  In t (subtractionTexts parens textsA textsB)
  <-> exists a b,
        In a textsA /\ In b textsB
        /\ t = (a ++ " - " ++ (if parens then "(" ++ b ++ ")" else b))%string.
Proof.
  unfold subtractionTexts.
  rewrite (pair_fold_In _
             (fun a b =>
                [(a ++ " - " ++ (if parens then "(" ++ b ++ ")" else b))%string])).
  - simpl. split.
    + intros [[] | (a & b & Ha & Hb & H)]. exists a, b. intuition.
    + intros (a & b & Ha & Hb & H). right. exists a, b. intuition.
  - intros a b acc t'. rewrite !setAdd_In. simpl. intuition.
Qed.

Lemma equals_true (this segment : Segment) :
  equals this segment = true
  <-> getValue this = getValue segment
      /\ exists e, In e (expressions this) /\ In e (expressions segment).
Proof.
  unfold equals. rewrite andb_true_iff, Z.eqb_eq, existsb_exists.
  split; intros [Hv (e & He & H)]; (split; [exact Hv |]); exists e;
    (split; [exact He |]); now apply setHas_In.
Qed.

Lemma operationExistsIn_false (operation : Segment) (l : list Segment) :
  operationExistsIn operation l = false ->
  forall segment, In segment l -> equals segment operation = false.
Proof.
  unfold operationExistsIn. intros Hex segment Hin.
  destruct (equals segment operation) eqn:E; [| reflexivity].
  assert (existsb (fun s => equals s operation) l = true)
    by (apply existsb_exists; eauto).
  congruence.
Qed.

Lemma operationExistsIn_true (operation segment : Segment) (l : list Segment) :
  In segment l -> equals segment operation = true ->
  operationExistsIn operation l = true.
Proof. intros Hin E. apply existsb_exists. eauto. Qed.

Lemma operationExistsIn_app (operation : Segment) (l1 l2 : list Segment) :
  operationExistsIn operation (l1 ++ l2)
  = operationExistsIn operation l1 || operationExistsIn operation l2.
Proof. apply existsb_app. Qed.

(** Every operand of a valid operation with a text gives the operation one. *)
Lemma Operation_has_text (operandA operandB operation : Segment) :
  operation = Addition operandA operandB
  \/ operation = Subtraction operandA operandB ->
  isValid operation = true ->
  expressions operandA <> [] -> expressions operandB <> [] ->
  expressions operation <> [].
Proof.
  intros Hop Hv HA HB.
  destruct (expressions operandA) as [| a la] eqn:EA; [congruence |].
  destruct (expressions operandB) as [| b lb] eqn:EB; [congruence |].
  destruct Hop as [-> | ->].
  - rewrite Addition_eq in *.
    destruct (negb (haveRepeatingDigits operandA operandB) && _); fields;
      [| discriminate].
    assert (Hin : In (a ++ " + " ++ b)%string
                    (additionTexts (expressions operandA) (expressions operandB))).
    { apply additionTexts_In. exists a, b. rewrite EA, EB. simpl. auto. }
    intros E. rewrite E in Hin. destruct Hin.
  - rewrite Subtraction_eq in *.
    destruct (negb (haveRepeatingDigits operandA operandB) && _); fields;
      [| discriminate].
    assert (Hin : In (a ++ " - "
                      ++ (if isDistributive operandB
                          then "(" ++ b ++ ")" else b))%string
                    (subtractionTexts (isDistributive operandB)
                       (expressions operandA) (expressions operandB))).
    { apply subtractionTexts_In. exists a, b. rewrite EA, EB. simpl. auto. }
    intros E. rewrite E in Hin. destruct Hin.
Qed.

Lemma digitSegmentAt_has_text (digit digitIndex : Z) :
  0 <= digitIndex <= 3 -> expressions (digitSegmentAt digit digitIndex) <> [].
Proof. intros Hi. now rewrite digitSegmentAt_eq. Qed.

Lemma Combination_has_text (numberA numberB : Segment) :
  isValid (Combination numberA numberB) = true ->
  expressions (Combination numberA numberB) <> [].
Proof.
  rewrite Combination_eq.
  now destruct (negb (haveRepeatingDigits numberA numberB) && _ && _ && _ && _).
Qed.

Lemma toString_In (s : Segment) :
  expressions s <> [] ->
  exists e, toString s = Some e /\ In e (expressions s).
Proof.
  unfold toString. destruct (expressions s) as [| e l]; [congruence |].
  intros _. exists e. split; [reflexivity | now left].
Qed.

(** ** Distinct texts under a key *)

Lemma distinctTexts_accept (segs l : list Segment)
    (sols : gmap Z (list (option string)))
    (operation segmentA segmentB : Segment) :
  Forall (fun s => expressions s <> []) segs ->
  In segmentA segs -> In segmentB segs ->
  operation = Addition segmentA segmentB
  \/ operation = Subtraction segmentA segmentB ->
  isValid operation = true ->
  operationExistsIn operation l = false ->
  operationExistsIn operation segs = false ->
  distinctTexts (segs ++ l) sols ->
  distinctTexts (segs ++ l ++ [operation])
    (if isSolution operation
     then addSolution sols (getValue operation) (toString operation)
     else sols).
Proof.
  intros HG HA HB Hop Hv Hl Hs HJ.
  assert (Hmono : forall s, In s (segs ++ l) -> In s (segs ++ l ++ [operation])).
  { intros s. rewrite !in_app_iff. tauto. }
  assert (Hold : forall v texts,
             sols !! v = Some texts ->
             NoDup texts
             /\ forall t, In t texts ->
                  exists s e,
                    In s (segs ++ l ++ [operation]) /\ getValue s = v
                    /\ t = Some e /\ In e (expressions s)).
  { intros v texts Hlook. destruct (HJ v texts Hlook) as [Hnd Hin].
    split; [exact Hnd |]. intros t Ht.
    destruct (Hin t Ht) as (s & e & Hs' & Hrest). exists s, e. auto. }
  destruct (isSolution operation); [| exact Hold].
  rewrite List.Forall_forall in HG.
  destruct (toString_In operation) as (e0 & Hts & He0).
  { apply (Operation_has_text segmentA segmentB); auto. }
  intros v texts. rewrite addSolution_lookup.
  destruct (decide (getValue operation = v)) as [<- | Hne]; [| apply Hold].
  intros Hlook. inversion Hlook; subst texts; clear Hlook.
  assert (Hprev : NoDup (default [] (sols !! getValue operation))
                  /\ forall t, In t (default [] (sols !! getValue operation)) ->
                       exists s e,
                         In s (segs ++ l) /\ getValue s = getValue operation
                         /\ t = Some e /\ In e (expressions s)).
  { destruct (sols !! getValue operation) as [texts |] eqn:E; simpl.
    - now apply HJ.
    - split; [constructor | intros t []]. }
  destruct Hprev as [Hnd Hin]. split.
  - apply NoDup_app. split; [exact Hnd |]. split; [| apply NoDup_singleton].
    intros t Ht Hlast. apply list_elem_of_In in Ht, Hlast.
    destruct Hlast as [<- | []].
    destruct (Hin _ Ht) as (s & e & Hs' & Hval & Heq & He).
    rewrite Hts in Heq. inversion Heq; subst e.
    assert (Heqs : equals s operation = true)
      by (apply equals_true; eauto).
    assert (operationExistsIn operation (segs ++ l) = true)
      by (now apply (operationExistsIn_true _ s)).
    rewrite operationExistsIn_app, Hs, Hl in *. discriminate.
  - intros t Ht. apply in_app_iff in Ht as [Ht | [<- | []]].
    + destruct (Hin t Ht) as (s & e & Hs' & Hrest). exists s, e. auto.
    + exists operation, e0. rewrite !in_app_iff. simpl. auto.
Qed.

(** C9: the texts listed under a key of the returned map are pairwise
    distinct; [addSolution] appends, so the list is in order of discovery;
    an accepted operation shares no text with an earlier segment of the same
    value, in the registry or in the round's list. *)
Theorem C9_solutions_distinct :
  (forall fuel digits result v texts,
      Calculator fuel digits = Returned result ->
      getSolutions result !! v = Some texts -> NoDup texts)
  /\ (forall sols v t k,
        addSolution sols v t !! k
        = if decide (v = k) then Some (default [] (sols !! v) ++ [t])
          else sols !! k)
  /\ (forall operation this operationList earlier e,
        snd (addOperation operation (this, operationList))
        = operationList ++ [operation] ->
        In earlier (segments this ++ operationList) ->
        getValue earlier = getValue operation ->
        In e (expressions earlier) -> ~ In e (expressions operation)).
Proof.
  split; [| split].
  - intros fuel digits result v texts Hres Hlook.
    apply Calculator_J
      with (G := fun s => expressions s <> []) (J := distinctTexts) in Hres.
    + now apply (proj2 Hres v texts).
    + exact digitSegmentAt_has_text.
    + intros numberA numberB _ _. apply Combination_has_text.
    + intros operandA operandB HA HB _ Hv.
      apply (Operation_has_text operandA operandB); auto.
    + intros operandA operandB HA HB _ Hv.
      apply (Operation_has_text operandA operandB); auto.
    + intros segs v' texts' Hl. now rewrite lookup_empty in Hl.
    + intros segs sols l operation segmentA segmentB HG HA HB _.
      now apply distinctTexts_accept.
  - intros sols v t k. apply addSolution_lookup.
  - intros operation this operationList earlier e Hacc Hin Hval He Hop.
    destruct (addOperation_cases operation this operationList)
      as [E | (_ & Hl & Hs & _)].
    + rewrite E in Hacc. simpl in Hacc.
      apply (f_equal (@length Segment)) in Hacc.
      rewrite length_app in Hacc. simpl in Hacc. lia.
    + assert (Heqs : equals earlier operation = true)
        by (apply equals_true; eauto).
      assert (operationExistsIn operation (segments this ++ operationList) = true)
        by (now apply (operationExistsIn_true _ earlier)).
      rewrite operationExistsIn_app, Hs, Hl in *. discriminate.
Qed.

Lemma C9_solutions_distinct_witness :
  getSolutions (returned (Calculator 4 [1; 0; 0; 0])) !! 10
  = Some [Some "0 + 0 + 10"; Some "0 - (0 - 10)"; Some "0 + 10 - 0";
          Some "10 - 0 - 0"]
  /\ NoDup [Some "0 + 0 + 10"; Some "0 - (0 - 10)"; Some "0 + 10 - 0";
            Some "10 - 0 - 0"].
Proof.
  assert (Hlook : getSolutions (returned (Calculator 4 [1; 0; 0; 0])) !! 10
                  = Some [Some "0 + 0 + 10"; Some "0 - (0 - 10)";
                          Some "0 + 10 - 0"; Some "10 - 0 - 0"])
    by (vm_compute; reflexivity).
  split; [exact Hlook |].
  apply (proj1 C9_solutions_distinct 4%nat [1; 0; 0; 0]
           (returned (Calculator 4 [1; 0; 0; 0])) 10);
    [vm_compute; reflexivity | exact Hlook].
Defined.

(** ** Termination of the closure loop *)

Lemma fold_left_establish {A B : Type} (R : A -> Prop) (Q : B -> A -> Prop)
    (f : A -> B -> A) (l : list B) :
  (forall a b, R a -> R (f a b)) ->
  (forall a b x, R a -> Q x a -> Q x (f a b)) ->
  (forall a b, In b l -> R a -> Q b (f a b)) ->
  forall a x, R a -> In x l -> Q x (fold_left f l a).
Proof.
  intros HR Hmono Hest.
  induction l as [| b l IH]; intros a x Ha Hx; simpl; [destruct Hx |].
  destruct Hx as [-> | Hx].
  - apply (fold_left_invariant (fun a' => R a' /\ Q x a')).
    + intros a' b' _ [HR' HQ']. split; [now apply HR | now apply Hmono].
    + split; [now apply HR | apply Hest; [now left | exact Ha]].
  - apply IH; auto.
    intros a' b' Hb'. apply Hest. now right.
Qed.

Lemma mask_cases (m : Z) :
  0 <= m <= 15 ->
  m = 0 \/ m = 1 \/ m = 2 \/ m = 3 \/ m = 4 \/ m = 5 \/ m = 6 \/ m = 7
  \/ m = 8 \/ m = 9 \/ m = 10 \/ m = 11 \/ m = 12 \/ m = 13 \/ m = 14
  \/ m = 15.
Proof. lia. Qed.

Ltac each_mask m H :=
  let C := fresh in
  pose proof (mask_cases m H) as C;
  repeat (destruct C as [C | C]; [subst m |]); [.. | subst m].

Lemma bitCount_range (m : Z) : 1 <= m <= 15 -> 1 <= bitCount m <= 4.
Proof.
  intros H. assert (H' : 0 <= m <= 15) by lia.
  each_mask m H'; try lia; clear; vm_compute; intuition discriminate.
Qed.

Lemma disjoint_masks (a b : Z) :
  1 <= a <= 15 -> 1 <= b <= 15 -> Z.land a b = 0 ->
  1 <= Z.lor a b <= 15 /\ bitCount (Z.lor a b) = bitCount a + bitCount b.
Proof.
  intros Ha Hb. assert (Ha' : 0 <= a <= 15) by lia.
  assert (Hb' : 0 <= b <= 15) by lia.
  each_mask a Ha'; try lia; each_mask b Hb'; try lia; clear; vm_compute;
    intuition (discriminate || reflexivity).
Qed.

Lemma haveRepeatingDigits_false (a b : Segment) :
  haveRepeatingDigits a b = false <-> Z.land (usedDigits a) (usedDigits b) = 0.
Proof.
  rewrite haveRepeatingDigits_land, negb_false_iff. apply Z.eqb_eq.
Qed.

Lemma Combination_valid_inv (numberA numberB : Segment) :
  isValid (Combination numberA numberB) = true ->
  haveRepeatingDigits numberA numberB = false
  /\ usedDigits (Combination numberA numberB)
     = Z.lor (usedDigits numberA) (usedDigits numberB)
  /\ expressions (Combination numberA numberB)
     = [toStringZ (getValue (Combination numberA numberB))]
  /\ isDistributive (Combination numberA numberB) = false.
Proof.
  rewrite Combination_eq.
  destruct (negb (haveRepeatingDigits numberA numberB) && _ && _ && _ && _)
    eqn:E; fields; [| discriminate].
  intros _. repeat (apply andb_true_iff in E as [E _]).
  apply negb_true_iff in E. now repeat split.
Qed.

Lemma Operation_usedDigits (operandA operandB operation : Segment) :
  operation = Addition operandA operandB
  \/ operation = Subtraction operandA operandB ->
  usedDigits operation = Z.lor (usedDigits operandA) (usedDigits operandB).
Proof.
  intros [-> | ->]; [rewrite Addition_eq | rewrite Subtraction_eq];
    now destruct (negb (haveRepeatingDigits operandA operandB) && _).
Qed.

Lemma wellFormed_digit (digit digitIndex : Z) :
  0 <= digitIndex <= 3 -> wellFormed (digitSegmentAt digit digitIndex).
Proof.
  intros Hi. rewrite digitSegmentAt_eq by exact Hi. split; [| discriminate].
  fields.
  assert (digitIndex = 0 \/ digitIndex = 1 \/ digitIndex = 2 \/ digitIndex = 3)
    as [-> | [-> | [-> | ->]]] by lia; simpl; lia.
Qed.

Lemma wellFormed_combination (numberA numberB : Segment) :
  wellFormed numberA -> wellFormed numberB ->
  isValid (Combination numberA numberB) = true ->
  wellFormed (Combination numberA numberB).
Proof.
  intros [HA _] [HB _] Hv.
  destruct (Combination_valid_inv _ _ Hv) as (Hrep & Hused & Hexp & _).
  split; [| now rewrite Hexp].
  rewrite Hused. apply disjoint_masks; auto.
  now apply haveRepeatingDigits_false.
Qed.

Lemma wellFormed_operation (operandA operandB operation : Segment) :
  operation = Addition operandA operandB
  \/ operation = Subtraction operandA operandB ->
  wellFormed operandA -> wellFormed operandB ->
  haveRepeatingDigits operandA operandB = false ->
  isValid operation = true ->
  wellFormed operation.
Proof.
  intros Hop [HA HtA] [HB HtB] Hrep Hv. split.
  - rewrite (Operation_usedDigits _ _ _ Hop). apply disjoint_masks; auto.
    now apply haveRepeatingDigits_false.
  - now apply (Operation_has_text operandA operandB).
Qed.

Lemma equals_refl (s : Segment) : expressions s <> [] -> equals s s = true.
Proof.
  intros Hne. apply equals_true. split; [reflexivity |].
  destruct (expressions s) as [| e l]; [congruence |].
  exists e. split; now left.
Qed.

Lemma equals_sym (a b : Segment) : equals a b = equals b a.
Proof.
  destruct (equals a b) eqn:E1, (equals b a) eqn:E2; try reflexivity.
  - apply equals_true in E1 as [Hv (e & Ha & Hb)].
    assert (equals b a = true) by (apply equals_true; eauto). congruence.
  - apply equals_true in E2 as [Hv (e & Ha & Hb)].
    assert (equals a b = true) by (apply equals_true; eauto). congruence.
Qed.

Lemma settled_addOperation (segs : list Segment) (operation other : Segment)
    (acc : Calculator_state * list Segment) :
  settled segs (snd acc) operation ->
  settled segs (snd (addOperation other acc)) operation.
Proof.
  intros [H | [H | H]]; [now left | now right; left |].
  right; right. destruct acc as [this l].
  destruct (addOperation_cases other this l) as [-> | (_ & _ & _ & ->)];
    [exact H |].
  simpl in *. rewrite operationExistsIn_app, H. reflexivity.
Qed.

Lemma addOperation_settles (operation : Segment)
    (acc : Calculator_state * list Segment) :
  (isValid operation = true -> expressions operation <> []) ->
  settled (segments (fst acc)) (snd (addOperation operation acc)) operation.
Proof.
  intros Htext. destruct acc as [this l]. unfold addOperation, settled.
  destruct (isValid operation) eqn:Hv; [| now left].
  destruct (operationExistsIn operation l) eqn:Hl; [now right; right |].
  destruct (operationExistsIn operation (segments this)) eqn:Hs;
    [now right; left |].
  right; right. simpl. rewrite operationExistsIn_app. apply orb_true_iff. right.
  simpl. now rewrite equals_refl by auto.
Qed.

(** After a round every operation over two segments of the registry is
    settled. *)
Lemma round_settles (this : Calculator_state) :
  Forall wellFormed (segments this) ->
  forall segmentA segmentB operation,
    In segmentA (segments this) -> In segmentB (segments this) ->
    haveRepeatingDigits segmentA segmentB = false ->
    operation = Addition segmentA segmentB
    \/ operation = Subtraction segmentA segmentB ->
    settled (segments this) (snd (round this)) operation.
Proof.
  intros Hwf segmentA segmentB operation HA HB Hrep Hop.
  rewrite List.Forall_forall in Hwf.
  set (R := fun acc : Calculator_state * list Segment =>
              segments (fst acc) = segments this).
  set (step := fun a (acc : Calculator_state * list Segment) b =>
                 if negb (haveRepeatingDigits a b)
                 then addOperation (Subtraction a b)
                        (addOperation (Addition a b) acc)
                 else acc).
  assert (HRstep : forall a acc b, R acc -> R (step a acc b)).
  { intros a acc b HR. unfold step, R in *.
    destruct (negb (haveRepeatingDigits a b)); [| exact HR].
    now rewrite !addOperation_segments. }
  assert (Hmono_step : forall a acc b op,
             settled (segments this) (snd acc) op ->
             settled (segments this) (snd (step a acc b)) op).
  { intros a acc b op H. unfold step.
    destruct (negb (haveRepeatingDigits a b)); [| exact H].
    now apply settled_addOperation, settled_addOperation. }
  assert (HRinner : forall a acc, R acc -> R (fold_left (step a) (segments this) acc)).
  { intros a acc HR. apply fold_left_invariant; [| exact HR].
    intros acc' b _. apply HRstep. }
  assert (Hmono_inner : forall a acc op,
             settled (segments this) (snd acc) op ->
             settled (segments this)
               (snd (fold_left (step a) (segments this) acc)) op).
  { intros a acc op H. apply fold_left_invariant; [| exact H].
    intros acc' b _. apply Hmono_step. }
  pose (Q := fun a (acc : Calculator_state * list Segment) =>
               forall b op,
                 In b (segments this) ->
                 haveRepeatingDigits a b = false ->
                 op = Addition a b \/ op = Subtraction a b ->
                 settled (segments this) (snd acc) op).
  assert (Hround : Q segmentA (round this));
    [| exact (Hround segmentB operation HB Hrep Hop)].
  unfold round. fold step.
  change (fun acc segmentA0 => fold_left (fun acc0 segmentB0 => step segmentA0 acc0 segmentB0) (segments this) acc)
    with (fun acc a => fold_left (step a) (segments this) acc).
  apply (fold_left_establish R Q); [| | | reflexivity | exact HA].
  - intros acc a. apply HRinner.
  - intros acc a x _ HQ b op Hb Hr Ho. apply Hmono_inner.
    exact (HQ b op Hb Hr Ho).
  - intros acc a Ha HR b op Hb Hr Ho.
    pose (Q' := fun b (acc : Calculator_state * list Segment) =>
                  forall op,
                    haveRepeatingDigits a b = false ->
                    op = Addition a b \/ op = Subtraction a b ->
                    settled (segments this) (snd acc) op).
    assert (Hinner : Q' b (fold_left (step a) (segments this) acc));
      [| exact (Hinner op Hr Ho)].
    apply (fold_left_establish R Q'); [| | | exact HR | exact Hb].
    + intros acc' b'. apply HRstep.
    + intros acc' b' x _ HQ op' Hr' Ho'. apply Hmono_step.
      exact (HQ op' Hr' Ho').
    + intros acc' b' Hb' HR' op' Hr' Ho'. unfold step. rewrite Hr'. simpl.
      assert (Htext : forall o, o = Addition a b' \/ o = Subtraction a b' ->
                        isValid o = true -> expressions o <> []).
      { intros o Ho'' Hv. apply (Operation_has_text a b'); auto.
        - apply (proj2 (Hwf a Ha)).
        - apply (proj2 (Hwf b' Hb')). }
      destruct Ho' as [-> | ->].
      * apply settled_addOperation.
        rewrite <- HR'. apply addOperation_settles. apply Htext. now left.
      * replace (segments this)
          with (segments (fst (addOperation (Addition a b') acc')))
          by (rewrite addOperation_segments; exact HR').
        apply addOperation_settles. apply Htext. now right.
Qed.

Lemma round_segments (this : Calculator_state) :
  segments (fst (round this)) = segments this.
Proof.
  exact (proj2 (round_invariant this (fun _ => True) I
                  (fun _ _ _ _ _ _ _ _ _ _ => I))).
Qed.

Lemma round_wellFormed (this : Calculator_state) :
  Forall wellFormed (segments this) -> Forall wellFormed (snd (round this)).
Proof.
  apply round_G.
  - intros a b HA HB. now apply (wellFormed_operation a b); [left | ..].
  - intros a b HA HB. now apply (wellFormed_operation a b); [right | ..].
Qed.

(** The operations a round accepts use one digit position more than the
    segments the previous round accepted. *)
Lemma round_level (this : Calculator_state) (old new : list Segment) (n : Z) :
  segments this = old ++ new ->
  closedUnder (segments this) old ->
  Forall wellFormed (segments this) ->
  Forall (fun s => n <= bitCount (usedDigits s)) new ->
  Forall (fun s => n + 1 <= bitCount (usedDigits s)) (snd (round this)).
Proof.
  intros Hsegs Hclosed Hwf Hnew.
  apply (round_invariant this
           (fun acc => Forall (fun s => n + 1 <= bitCount (usedDigits s))
                         (snd acc))); [constructor |].
  intros [this' l] segmentA segmentB operation HA HB Hrep Hop Hseg Hl.
  simpl in Hseg, Hl.
  destruct (addOperation_cases operation this' l) as [-> | (Hv & _ & Hs & ->)];
    [exact Hl |].
  simpl. apply Forall_app. split; [exact Hl |].
  constructor; [| constructor].
  rewrite Hseg in Hs.
  rewrite List.Forall_forall in Hwf, Hnew.
  destruct (Hwf _ HA) as [HmA _], (Hwf _ HB) as [HmB _].
  assert (Hland : Z.land (usedDigits segmentA) (usedDigits segmentB) = 0)
    by now apply haveRepeatingDigits_false.
  destruct (disjoint_masks _ _ HmA HmB Hland) as [_ Hbits].
  rewrite (Operation_usedDigits _ _ _ Hop), Hbits.
  pose proof (bitCount_range _ HmA). pose proof (bitCount_range _ HmB).
  rewrite Hsegs in HA, HB. apply in_app_iff in HA, HB.
  destruct HA as [HA | HA]; [| specialize (Hnew _ HA); lia].
  destruct HB as [HB | HB]; [| specialize (Hnew _ HB); lia].
  exfalso.
  destruct (Hclosed segmentA segmentB operation HA HB Hrep Hop)
    as [H' | [H' | H']]; simpl in H'; congruence.
Qed.

Lemma round_closedUnder (this : Calculator_state) :
  Forall wellFormed (segments this) ->
  closedUnder (segments this ++ snd (round this)) (segments this).
Proof.
  intros Hwf segmentA segmentB operation HA HB Hrep Hop.
  destruct (round_settles this Hwf _ _ _ HA HB Hrep Hop) as [H | [H | H]].
  - now left.
  - right; left. now rewrite operationExistsIn_app, H.
  - right; left. rewrite operationExistsIn_app, H. apply orb_true_r.
Qed.

Lemma generateOperations_terminates (fuel : nat) :
  forall (this : Calculator_state) (old new : list Segment) (n : Z),
    segments this = old ++ new ->
    closedUnder (segments this) old ->
    Forall wellFormed (segments this) ->
    Forall (fun s => n <= bitCount (usedDigits s)) new ->
    (1 <= fuel)%nat -> 5 <= n + Z.of_nat fuel ->
    exists result, generateOperations fuel this = Returned result.
Proof.
  induction fuel as [| fuel IH]; intros this old new n Hsegs Hclosed Hwf Hnew
    Hfuel Hn; [lia |].
  pose proof (round_level this old new n Hsegs Hclosed Hwf Hnew) as Hlevel.
  pose proof (round_wellFormed this Hwf) as Hwf'.
  pose proof (round_closedUnder this Hwf) as Hclosed'.
  pose proof (round_segments this) as Hseg.
  cbn [generateOperations].
  destruct (round this) as [this' newOperations]. simpl in *.
  destruct newOperations as [| operation rest]; [eauto |].
  change (0 <? Z.of_nat (length (operation :: rest))) with true. cbn iota.
  apply (IH _ (segments this) (operation :: rest) (n + 1)).
  - simpl. now rewrite Hseg.
  - simpl. now rewrite Hseg.
  - simpl. rewrite Hseg. apply Forall_app. now split.
  - exact Hlevel.
  - inversion Hlevel as [| ? ? Hop _]; subst.
    inversion Hwf' as [| ? ? [Hm _] _]; subst.
    pose proof (bitCount_range _ Hm). lia.
  - lia.
Qed.

Lemma closedUnder_nil (segs : list Segment) : closedUnder segs [].
Proof. intros a b op []. Qed.

Lemma generateOperations_terminates_four (this : Calculator_state) (fuel : nat) :
  Forall wellFormed (segments this) -> (4 <= fuel)%nat ->
  exists result, generateOperations fuel this = Returned result.
Proof.
  intros Hwf Hfuel.
  apply (generateOperations_terminates fuel this [] (segments this) 1).
  - reflexivity.
  - apply closedUnder_nil.
  - exact Hwf.
  - apply List.Forall_forall. intros s Hs.
    rewrite List.Forall_forall in Hwf.
    destruct (Hwf s Hs) as [Hm _]. pose proof (bitCount_range _ Hm). lia.
  - lia.
  - lia.
Qed.

Lemma Calculator_terminates (digits : list Z) (fuel : nat) :
  length digits = 4%nat -> (4 <= fuel)%nat ->
  exists result, Calculator fuel digits = Returned result.
Proof.
  intros Hlen Hfuel.
  destruct (length_four digits Hlen) as (d0 & d1 & d2 & d3 & ->).
  rewrite Calculator_four.
  apply generateOperations_terminates_four; [| exact Hfuel].
  apply addNumberCombinations_G.
  - exact wellFormed_combination.
  - apply seedSegments_G. exact wellFormed_digit.
Qed.

Lemma generateOperations_more_fuel (fuel : nat) :
  forall this result fuel',
    generateOperations fuel this = Returned result ->
    (fuel <= fuel')%nat ->
    generateOperations fuel' this = Returned result.
Proof.
  induction fuel as [| fuel IH]; intros this result fuel' Hgen Hle;
    [discriminate |].
  destruct fuel' as [| fuel']; [lia |].
  cbn [generateOperations] in *.
  destruct (round this) as [this' newOperations].
  destruct (0 <? Z.of_nat (length newOperations)); [| exact Hgen].
  apply (IH _ _ _ Hgen). lia.
Qed.

(** On four digits the constructor returns, and returns the same object
    whatever fuel of at least four rounds it is given. *)
Lemma Calculator_returns (digits : list Z) :
  length digits = 4%nat ->
  exists result,
    forall fuel, (4 <= fuel)%nat -> Calculator fuel digits = Returned result.
Proof.
  intros Hlen.
  destruct (Calculator_terminates digits 4 Hlen (Nat.le_refl 4)) as [result Hres].
  exists result. intros fuel Hfuel.
  destruct (length_four digits Hlen) as (d0 & d1 & d2 & d3 & ->).
  rewrite Calculator_four in *.
  now apply (generateOperations_more_fuel 4).
Qed.

(** The operations a round accepts are pairwise not [equals], and none is
    [equals] to a segment of the registry. *)
Lemma round_accepts_new (this : Calculator_state) :
  (forall (i j : nat) a b,
      snd (round this) !! i = Some a -> snd (round this) !! j = Some b ->
      i <> j -> equals a b = false)
  /\ (forall s operation,
        In s (segments this) -> In operation (snd (round this)) ->
        equals s operation = false).
Proof.
  set (P := fun acc : Calculator_state * list Segment =>
              (forall (i j : nat) a b,
                  snd acc !! i = Some a -> snd acc !! j = Some b ->
                  (i < j)%nat -> equals a b = false)
              /\ (forall s operation,
                    In s (segments this) -> In operation (snd acc) ->
                    equals s operation = false)).
  assert (Hinv : P (round this)); [apply (round_invariant this P) |];
    subst P; cbv beta in *.
  - split; [intros i j a b H; simpl in H; now rewrite lookup_nil in H
           | intros s op _ []].
  - intros [this' l] segmentA segmentB operation HA HB Hrep Hop Hseg [Hp Hr].
    simpl in Hseg, Hp, Hr.
    destruct (addOperation_cases operation this' l)
      as [-> | (Hv & Hl & Hs & ->)]; [now split |].
    rewrite Hseg in Hs. simpl. split.
    + intros i j a b Hi Hj Hlt.
      apply lookup_app_Some in Hj as [Hj | [Hge Hj]].
      * apply lookup_app_Some in Hi as [Hi | [Hge' _]].
        -- now apply (Hp i j).
        -- apply lookup_lt_Some in Hj. lia.
      * apply list_lookup_singleton_Some in Hj as [Hj0 <-].
        apply lookup_app_Some in Hi as [Hi | [Hge' Hi]].
        -- apply (operationExistsIn_false _ _ Hl).
           apply list_elem_of_In, list_elem_of_lookup. eauto.
        -- apply list_lookup_singleton_Some in Hi as [Hi _]. lia.
    + intros s op Hin Hop'. apply in_app_iff in Hop' as [Hop' | [<- | []]].
      * now apply Hr.
      * now apply (operationExistsIn_false _ _ Hs).
  - destruct Hinv as [Hpair Hreg]. split; [| exact Hreg].
    intros i j a b Hi Hj Hne.
    destruct (Nat.lt_total i j) as [Hlt | [-> | Hgt]]; [| congruence |].
    + now apply (Hpair i j).
    + rewrite equals_sym. now apply (Hpair j i).
Qed.

(** C3: on four digits the closure loop ends within four rounds, whatever
    the digits: the operations a round accepts are pairwise not [equals] and
    not [equals] to a registered segment, each of them uses more digit
    positions than the operations of the round before, and there are four
    positions. *)
Theorem C3_generateOperations_terminates :
  (forall digits,
      length digits = 4%nat ->
      exists result,
        forall fuel, (4 <= fuel)%nat -> Calculator fuel digits = Returned result)
  /\ (forall this,
        (forall (i j : nat) a b,
            snd (round this) !! i = Some a -> snd (round this) !! j = Some b ->
            i <> j -> equals a b = false)
        /\ (forall s operation,
              In s (segments this) -> In operation (snd (round this)) ->
              equals s operation = false))
  /\ (forall this old new n,
        segments this = old ++ new ->
        closedUnder (segments this) old ->
        Forall wellFormed (segments this) ->
        Forall (fun s => n <= bitCount (usedDigits s)) new ->
        Forall (fun s => n + 1 <= bitCount (usedDigits s) <= 4)
          (snd (round this))
        /\ closedUnder (segments this ++ snd (round this)) (segments this)).
Proof.
  split; [exact Calculator_returns |]. split; [exact round_accepts_new |].
  intros this old new n Hsegs Hclosed Hwf Hnew. split.
  - pose proof (round_level this old new n Hsegs Hclosed Hwf Hnew) as Hlevel.
    pose proof (round_wellFormed this Hwf) as Hwf'.
    rewrite List.Forall_forall in *. intros s Hs.
    destruct (Hwf' s Hs) as [Hm _]. pose proof (bitCount_range _ Hm).
    specialize (Hlevel s Hs). simpl in Hlevel. lia.
  - now apply round_closedUnder.
Qed.

Lemma C3_generateOperations_terminates_witness :
  exists result, Calculator 4 [9; 9; 9; 9] = Returned result.
Proof.
  destruct (proj1 C3_generateOperations_terminates [9; 9; 9; 9] eq_refl)
    as [result Hres].
  exists result. apply Hres. lia.
Defined.

(** ** Reading the texts back *)

Lemma lexFrom_app (s1 : string) :
  forall pending c s2 ts1 tk ts2,
    digitValue c = None -> symbolTokens c = Some tk ->
    lexFrom pending s1 = Some ts1 ->
    lexFrom None s2 = Some ts2 ->
    lexFrom pending (s1 ++ String c s2) = Some (ts1 ++ tk ++ ts2).
Proof.
  induction s1 as [| d s1 IH]; intros pending c s2 ts1 tk ts2 Hd Hc H1 H2;
    simpl in *.
  - inversion H1; subst. now rewrite Hd, Hc, H2.
  - destruct (digitValue d) as [dv |]; [now apply IH |].
    destruct (symbolTokens d) as [tsd |]; [| discriminate].
    destruct (lexFrom None s1) as [more |] eqn:E; [| discriminate].
    inversion H1; subst.
    rewrite (IH None c s2 more tk ts2 Hd Hc E H2).
    now rewrite <- !app_assoc.
Qed.

Lemma lex_plus (a b : string) (ta tb : list token) :
  lexFrom None a = Some ta -> lexFrom None b = Some tb ->
  lexFrom None (a ++ " + " ++ b) = Some (ta ++ TPlus :: tb).
Proof.
  intros Ha Hb.
  change (a ++ " + " ++ b)%string
    with (a ++ String " " (String "+" (String " " b)))%string.
  apply (lexFrom_app a None " "%char _ ta [] (TPlus :: tb)); auto.
  simpl. now rewrite Hb.
Qed.

Lemma lex_minus (a b : string) (ta tb : list token) :
  lexFrom None a = Some ta -> lexFrom None b = Some tb ->
  lexFrom None (a ++ " - " ++ b) = Some (ta ++ TMinus :: tb).
Proof.
  intros Ha Hb.
  change (a ++ " - " ++ b)%string
    with (a ++ String " " (String "-" (String " " b)))%string.
  apply (lexFrom_app a None " "%char _ ta [] (TMinus :: tb)); auto.
  simpl. now rewrite Hb.
Qed.

Lemma lexFrom_symbol (pending : option Z) (c : ascii) (tk : list token)
    (rest : string) :
  digitValue c = None -> symbolTokens c = Some tk ->
  lexFrom pending (String c rest)
  = match lexFrom None rest with
    | Some more => Some (flush pending ++ tk ++ more)
    | None => None
    end.
Proof. intros Hd Hc. cbn [lexFrom]. now rewrite Hd, Hc. Qed.

Lemma lex_parens (b : string) (tb : list token) :
  lexFrom None b = Some tb ->
  lexFrom None ("(" ++ b ++ ")") = Some (TLParen :: tb ++ [TRParen]).
Proof.
  intros Hb.
  change ("(" ++ b ++ ")")%string with (String "(" (b ++ String ")" ""))%string.
  rewrite (lexFrom_symbol None "("%char [TLParen]) by reflexivity.
  now rewrite (lexFrom_app b None ")"%char "" tb [TRParen] []).
Qed.

Lemma digitValue_digitChar (d : Z) :
  0 <= d < 10 -> digitValue (digitChar d) = Some d.
Proof.
  intros Hd.
  assert (d = 0 \/ d = 1 \/ d = 2 \/ d = 3 \/ d = 4 \/ d = 5 \/ d = 6
          \/ d = 7 \/ d = 8 \/ d = 9) as H by lia.
  repeat (destruct H as [-> | H]; [reflexivity |]). now subst.
Qed.

Lemma lexFrom_decimalOf (fuel : nat) :
  forall n suffix,
    0 <= n < 10 ^ (Z.of_nat fuel + 1) ->
    lexFrom None (decimalOf fuel n suffix) = lexFrom (Some n) suffix.
Proof.
  assert (Hsmall : forall n suffix, 0 <= n < 10 ->
            lexFrom None (String (digitChar (n mod 10)) suffix)
            = lexFrom (Some n) suffix).
  { intros n suffix Hn. rewrite Z.mod_small by lia. cbn [lexFrom].
    rewrite digitValue_digitChar by lia. f_equal. }
  induction fuel as [| fuel IH]; intros n suffix Hn; cbn [decimalOf].
  - apply Hsmall. simpl in Hn. lia.
  - destruct (Z.ltb_spec n 10) as [Hlt | Hge]; [apply Hsmall; lia |].
    rewrite IH.
    + cbn [lexFrom].
      rewrite digitValue_digitChar by (apply Z.mod_pos_bound; lia).
      f_equal. f_equal. pose proof (Z.div_mod n 10). lia.
    + split; [apply Z.div_pos; lia |].
      replace (Z.of_nat (S fuel) + 1) with (Z.succ (Z.of_nat fuel + 1)) in Hn
        by lia.
      rewrite Z.pow_succ_r in Hn by lia.
      apply Z.div_lt_upper_bound; lia.
Qed.

Lemma lex_numeral (n : Z) :
  exists ts, lexFrom None (toStringZ n) = Some ts /\ AtomText ts n.
Proof.
  unfold toStringZ. destruct (Z.ltb_spec n 0) as [Hneg | Hpos].
  - exists [TMinus; TNum (- n)]. split.
    + rewrite (lexFrom_symbol None "-"%char [TMinus]) by reflexivity.
      rewrite lexFrom_decimalOf by (split; [lia | apply log2_fuel; lia]).
      reflexivity.
    + intros stack acc sign rest. simpl. do 2 f_equal. lia.
  - exists [TNum n]. split.
    + rewrite lexFrom_decimalOf by (split; [lia | apply log2_fuel; lia]).
      reflexivity.
    + intros stack acc sign rest. reflexivity.
Qed.

Lemma AtomText_SumText (ts : list token) (v : Z) : AtomText ts v -> SumText ts v.
Proof.
  intros H stack acc rest. rewrite H. do 2 f_equal. lia.
Qed.

Lemma SumText_plus (ta tb : list token) (va vb : Z) :
  SumText ta va -> SumText tb vb -> SumText (ta ++ TPlus :: tb) (va + vb).
Proof.
  intros Ha Hb stack acc rest.
  rewrite <- app_assoc, Ha. cbn [app evalTokens]. rewrite Hb.
  do 2 f_equal. lia.
Qed.

Lemma SumText_minus (ta tb : list token) (va vb : Z) :
  SumText ta va -> AtomText tb vb -> SumText (ta ++ TMinus :: tb) (va - vb).
Proof.
  intros Ha Hb stack acc rest.
  rewrite <- app_assoc, Ha. cbn [app evalTokens]. rewrite Hb.
  do 2 f_equal. lia.
Qed.

Lemma AtomText_parens (tb : list token) (vb : Z) :
  SumText tb vb -> AtomText (TLParen :: tb ++ [TRParen]) vb.
Proof.
  intros Hb stack acc sign rest.
  cbn [app evalTokens]. rewrite <- app_assoc, Hb. cbn [app evalTokens].
  do 2 f_equal.
Qed.

Lemma SumText_evalText (e : string) (ts : list token) (v : Z) :
  lexFrom None e = Some ts -> SumText ts v -> evalText e = Some v.
Proof.
  intros Hlex Hsum. unfold evalText. rewrite Hlex.
  rewrite <- (app_nil_r ts), Hsum. reflexivity.
Qed.

Lemma textsEvaluate_numeral (s : Segment) :
  expressions s = [toStringZ (getValue s)] -> textsEvaluate s.
Proof.
  intros He. split; [now rewrite He |].
  intros e Hin. rewrite He in Hin. destruct Hin as [<- | []].
  destruct (lex_numeral (getValue s)) as (ts & Hlex & Hatom).
  exists ts. split; [exact Hlex |]. split; [now apply AtomText_SumText | auto].
Qed.

Lemma textsEvaluate_digit (digit digitIndex : Z) :
  0 <= digitIndex <= 3 -> textsEvaluate (digitSegmentAt digit digitIndex).
Proof.
  intros Hi. apply textsEvaluate_numeral. now rewrite digitSegmentAt_eq.
Qed.

Lemma textsEvaluate_combination (numberA numberB : Segment) :
  isValid (Combination numberA numberB) = true ->
  textsEvaluate (Combination numberA numberB).
Proof.
  intros Hv. apply textsEvaluate_numeral.
  now destruct (Combination_valid_inv _ _ Hv) as (_ & _ & He & _).
Qed.

Lemma textsEvaluate_addition (operandA operandB : Segment) :
  textsEvaluate operandA -> textsEvaluate operandB ->
  isValid (Addition operandA operandB) = true ->
  textsEvaluate (Addition operandA operandB).
Proof.
  intros [HneA HA] [HneB HB] Hv.
  split; [now apply (Operation_has_text operandA operandB); [left | ..] |].
  rewrite Addition_eq in *.
  destruct (negb (haveRepeatingDigits operandA operandB) && _); fields;
    [| discriminate].
  intros e He. apply additionTexts_In in He as (a & b & Ha & Hb & He).
  destruct (HA a Ha) as (ta & Hla & Hsa & _).
  destruct (HB b Hb) as (tb & Hlb & Hsb & _).
  destruct He as [-> | ->].
  - exists (ta ++ TPlus :: tb). split; [now apply lex_plus |].
    split; [now apply SumText_plus | discriminate].
  - exists (tb ++ TPlus :: ta). split; [now apply lex_plus |].
    split; [| discriminate].
    rewrite Z.add_comm. now apply SumText_plus.
Qed.

Lemma textsEvaluate_subtraction (operandA operandB : Segment) :
  textsEvaluate operandA -> textsEvaluate operandB ->
  isValid (Subtraction operandA operandB) = true ->
  textsEvaluate (Subtraction operandA operandB).
Proof.
  intros [HneA HA] [HneB HB] Hv.
  split; [now apply (Operation_has_text operandA operandB); [right | ..] |].
  rewrite Subtraction_eq in *.
  destruct (negb (haveRepeatingDigits operandA operandB) && _); fields;
    [| discriminate].
  intros e He. apply subtractionTexts_In in He as (a & b & Ha & Hb & ->).
  destruct (HA a Ha) as (ta & Hla & Hsa & _).
  destruct (HB b Hb) as (tb & Hlb & Hsb & Hatom).
  destruct (isDistributive operandB) eqn:Hd.
  - exists (ta ++ TMinus :: (TLParen :: tb ++ [TRParen])).
    split; [apply lex_minus; [exact Hla | now apply lex_parens] |].
    split; [| discriminate].
    apply SumText_minus; [exact Hsa | now apply AtomText_parens].
  - exists (ta ++ TMinus :: tb). split; [now apply lex_minus |].
    split; [| discriminate].
    apply SumText_minus; [exact Hsa | now apply Hatom].
Qed.

Lemma textsEvaluate_evalText (s : Segment) (e : string) :
  textsEvaluate s -> In e (expressions s) -> evalText e = Some (getValue s).
Proof.
  intros [_ H] Hin. destruct (H e Hin) as (ts & Hlex & Hsum & _).
  now apply (SumText_evalText e ts).
Qed.

(** C1: every text listed under a key of the returned solution map evaluates
    to that key, and so does every text of every registered segment to the
    segment's value; the texts of a [Subtraction] are the left texts, [" - "]
    and the right texts, the latter in parentheses when the right operand is
    an [Addition] or a [Subtraction]. *)
Theorem C1_solution_texts_evaluate :
  (forall fuel digits result,
      Calculator fuel digits = Returned result ->
      solutionsEvaluate (getSolutions result)
      /\ forall s e,
           In s (segments result) -> In e (expressions s) ->
           evalText e = Some (getValue s))
  /\ (forall digits,
        length digits = 4%nat ->
        exists result,
          (forall fuel, (4 <= fuel)%nat -> Calculator fuel digits = Returned result)
          /\ solutionsEvaluate (getSolutions result))
  /\ (forall operandA operandB e,
        isValid (Subtraction operandA operandB) = true ->
        (In e (expressions (Subtraction operandA operandB))
         <-> exists a b,
               In a (expressions operandA) /\ In b (expressions operandB)
               /\ e = (a ++ " - "
                       ++ (if isDistributive operandB
                           then "(" ++ b ++ ")" else b))%string))
  /\ (forall operandA operandB e,
        isValid (Addition operandA operandB) = true ->
        (In e (expressions (Addition operandA operandB))
         <-> exists a b,
               In a (expressions operandA) /\ In b (expressions operandB)
               /\ (e = (a ++ " + " ++ b)%string
                   \/ e = (b ++ " + " ++ a)%string))).
Proof.
  assert (Hpartial :
            forall fuel digits result,
              Calculator fuel digits = Returned result ->
              solutionsEvaluate (getSolutions result)
              /\ forall s e,
                   In s (segments result) -> In e (expressions s) ->
                   evalText e = Some (getValue s));
    [| split; [exact Hpartial | split; [| split]]].
  - intros fuel digits result Hres.
    apply Calculator_J
      with (G := textsEvaluate) (J := fun _ sols => solutionsEvaluate sols)
      in Hres.
    + destruct Hres as [HG HJ]. split; [exact HJ |].
      intros s e Hs He. rewrite List.Forall_forall in HG.
      now apply textsEvaluate_evalText; [apply HG |].
    + exact textsEvaluate_digit.
    + intros numberA numberB _ _. apply textsEvaluate_combination.
    + intros operandA operandB HA HB _. now apply textsEvaluate_addition.
    + intros operandA operandB HA HB _. now apply textsEvaluate_subtraction.
    + intros _ v texts t Hl. now rewrite lookup_empty in Hl.
    + intros segs sols l operation segmentA segmentB HG HA HB _ Hop Hv _ _ HJ.
      destruct (isSolution operation); [| exact HJ].
      rewrite List.Forall_forall in HG.
      assert (Hgood : textsEvaluate operation).
      { destruct Hop as [-> | ->];
          [apply textsEvaluate_addition | apply textsEvaluate_subtraction];
          auto. }
      destruct (toString_In operation (proj1 Hgood)) as (e0 & Hts & He0).
      intros v texts t. rewrite addSolution_lookup.
      destruct (decide (getValue operation = v)) as [<- | _]; [| apply HJ].
      intros Hlook Hin. inversion Hlook; subst texts; clear Hlook.
      apply in_app_iff in Hin as [Hin | [<- | []]].
      * destruct (sols !! getValue operation) as [old |] eqn:E;
          [now apply (HJ _ old) | destruct Hin].
      * exists e0. split; [exact Hts | now apply textsEvaluate_evalText].
  - intros digits Hlen.
    destruct (Calculator_returns digits Hlen) as [result Hres].
    exists result. split; [exact Hres |].
    apply (Hpartial 4%nat digits result). apply Hres. lia.
  - intros operandA operandB e. rewrite Subtraction_eq.
    destruct (negb (haveRepeatingDigits operandA operandB) && _); fields;
      [| discriminate].
    intros _. apply subtractionTexts_In.
  - intros operandA operandB e. rewrite Addition_eq.
    destruct (negb (haveRepeatingDigits operandA operandB) && _); fields;
      [| discriminate].
    intros _. apply additionTexts_In.
Qed.

Lemma C1_solution_texts_evaluate_witness :
  solutionsEvaluate (getSolutions (returned (Calculator 4 [1; 0; 0; 0])))
  /\ getSolutions (returned (Calculator 4 [1; 0; 0; 0])) !! 10
     = Some [Some "0 + 0 + 10"; Some "0 - (0 - 10)"; Some "0 + 10 - 0";
             Some "10 - 0 - 0"].
Proof.
  split; [| vm_compute; reflexivity].
  apply (proj1 C1_solution_texts_evaluate 4%nat [1; 0; 0; 0]
           (returned (Calculator 4 [1; 0; 0; 0]))).
  vm_compute; reflexivity.
Defined.

(** * Further properties of the engine *)

(** ** Duplicates *)

(** X1: [equals] is symmetric; a segment is [equals] to itself exactly when
    it has a text; [equals] is not transitive, already on valid operations
    over the digits 1 2 3. *)
Theorem X1_equals_symmetric_not_transitive :
  (forall a b, equals a b = equals b a)
  /\ (forall s, equals s s = true <-> expressions s <> [])
  /\ (let d1 := digitSegmentAt 1 0 in
      let d2 := digitSegmentAt 2 1 in
      let d3 := digitSegmentAt 3 2 in
      let a := Addition d1 (Subtraction d2 d3) in
      let b := Subtraction (Addition d1 d2) d3 in
      let c := Addition d2 (Subtraction d1 d3) in
      isValid a = true /\ isValid b = true /\ isValid c = true
      /\ equals a b = true /\ equals b c = true /\ equals a c = false).
Proof.
  split; [exact equals_sym |]. split.
  - intros s. split; [| apply equals_refl].
    intros E Hnil. unfold equals in E. rewrite Hnil in E.
    now rewrite andb_false_r in E.
  - vm_compute. repeat split.
Qed.

Lemma Addition_texts_comm (operandA operandB : Segment) (e : string) :
  In e (additionTexts (expressions operandA) (expressions operandB))
  <-> In e (additionTexts (expressions operandB) (expressions operandA)).
Proof.
  rewrite !additionTexts_In.
  split; intros (a & b & Ha & Hb & H); exists b, a; tauto.
Qed.

Lemma Addition_comm_fields (operandA operandB : Segment) :
  isValid (Addition operandA operandB) = isValid (Addition operandB operandA)
  /\ getValue (Addition operandA operandB)
     = getValue (Addition operandB operandA)
  /\ usedDigits (Addition operandA operandB)
     = usedDigits (Addition operandB operandA)
  /\ isSolution (Addition operandA operandB)
     = isSolution (Addition operandB operandA)
  /\ forall e,
       In e (expressions (Addition operandA operandB))
       <-> In e (expressions (Addition operandB operandA)).
Proof.
  rewrite !Addition_eq.
  rewrite (haveRepeatingDigits_sym operandB operandA).
  rewrite (Z.lor_comm (usedDigits operandB) (usedDigits operandA)).
  rewrite (Z.add_comm (getValue operandB) (getValue operandA)).
  destruct (negb (haveRepeatingDigits operandA operandB) && _); fields;
    repeat split; try tauto.
  all: apply Addition_texts_comm.
Qed.

(** X2: [Addition(b, a)] has the validity, value, mask and texts of
    [Addition(a, b)]; when valid over operands that have texts, the two are
    [equals], so [addOperation] drops the second once the first is in the
    round's list or in the registry. *)
Theorem X2_Addition_commuted_is_duplicate (operandA operandB : Segment) :
  (isValid (Addition operandA operandB) = isValid (Addition operandB operandA)
   /\ getValue (Addition operandA operandB)
      = getValue (Addition operandB operandA)
   /\ usedDigits (Addition operandA operandB)
      = usedDigits (Addition operandB operandA)
   /\ isSolution (Addition operandA operandB)
      = isSolution (Addition operandB operandA)
   /\ forall e,
        In e (expressions (Addition operandA operandB))
        <-> In e (expressions (Addition operandB operandA)))
  /\ (isValid (Addition operandA operandB) = true ->
      expressions operandA <> [] -> expressions operandB <> [] ->
      equals (Addition operandA operandB) (Addition operandB operandA) = true
      /\ forall this operationList,
           In (Addition operandA operandB) (segments this ++ operationList) ->
           addOperation (Addition operandB operandA) (this, operationList)
           = (this, operationList)).
Proof.
  split; [apply Addition_comm_fields |].
  intros Hv HA HB.
  destruct (Addition_comm_fields operandA operandB) as (_ & Hval & _ & _ & Hin).
  assert (Hne : expressions (Addition operandA operandB) <> [])
    by (apply (Operation_has_text operandA operandB); auto).
  assert (Heq : equals (Addition operandA operandB) (Addition operandB operandA)
                = true).
  { apply equals_true. split; [exact Hval |].
    destruct (expressions (Addition operandA operandB)) as [| e l] eqn:E;
      [congruence |].
    exists e. split; [now left |]. apply Hin. now left. }
  split; [exact Heq |].
  intros this operationList Hmem.
  assert (Hex : operationExistsIn (Addition operandB operandA)
                  (segments this ++ operationList) = true)
    by (apply (operationExistsIn_true _ (Addition operandA operandB)); auto).
  rewrite operationExistsIn_app in Hex.
  unfold addOperation.
  destruct (operationExistsIn (Addition operandB operandA) operationList);
    [now rewrite andb_false_r |].
  rewrite orb_false_r in Hex. rewrite Hex. now rewrite andb_false_r.
Qed.

Lemma X2_Addition_commuted_is_duplicate_witness :
  equals (Addition (digitSegmentAt 1 0) (digitSegmentAt 2 1))
    (Addition (digitSegmentAt 2 1) (digitSegmentAt 1 0)) = true.
Proof.
  apply (proj2 (X2_Addition_commuted_is_duplicate
                  (digitSegmentAt 1 0) (digitSegmentAt 2 1)));
    [vm_compute; reflexivity | vm_compute; discriminate
     | vm_compute; discriminate].
Defined.

(** X3: two digit segments overlap exactly when they come from the same
    position, whatever their digits: a position is never used twice, equal
    digits at different positions combine. *)
Theorem X3_digit_segments_overlap_iff_same_index
    (digitA digitB indexA indexB : Z) :
  0 <= indexA <= 3 -> 0 <= indexB <= 3 ->
  (haveRepeatingDigits (digitSegmentAt digitA indexA)
     (digitSegmentAt digitB indexB) = true
   <-> indexA = indexB).
Proof.
  intros HA HB. rewrite !digitSegmentAt_eq by assumption.
  unfold haveRepeatingDigits. fields.
  assert (indexA = 0 \/ indexA = 1 \/ indexA = 2 \/ indexA = 3)
    as [-> | [-> | [-> | ->]]] by lia;
    assert (indexB = 0 \/ indexB = 1 \/ indexB = 2 \/ indexB = 3)
      as [-> | [-> | [-> | ->]]] by lia;
    vm_compute; split; intros H; congruence.
Qed.

Lemma X3_digit_segments_overlap_iff_same_index_witness :
  haveRepeatingDigits (digitSegmentAt 5 2) (digitSegmentAt 5 3) <> true.
Proof.
  intros H.
  apply (X3_digit_segments_overlap_iff_same_index 5 5 2 3) in H; lia.
Defined.

(** ** Numbers *)

Lemma decimalOf_fuel (fuel : nat) :
  forall fuel' n suffix,
    0 <= n -> n < 10 ^ (Z.of_nat fuel + 1) -> n < 10 ^ (Z.of_nat fuel' + 1) ->
    decimalOf fuel n suffix = decimalOf fuel' n suffix.
Proof.
  induction fuel as [| fuel IH]; intros fuel' n suffix Hn Hf Hf'.
  - simpl in Hf. destruct fuel'; cbn [decimalOf]; [reflexivity |].
    destruct (Z.ltb_spec n 10); [reflexivity | lia].
  - destruct fuel' as [| fuel']; cbn [decimalOf].
    + simpl in Hf'. destruct (Z.ltb_spec n 10); [reflexivity | lia].
    + destruct (Z.ltb_spec n 10); [reflexivity |].
      replace (Z.of_nat (S fuel) + 1) with (Z.succ (Z.of_nat fuel + 1)) in Hf
        by lia.
      replace (Z.of_nat (S fuel') + 1) with (Z.succ (Z.of_nat fuel' + 1)) in Hf'
        by lia.
      rewrite Z.pow_succ_r in Hf, Hf' by lia.
      apply IH; [apply Z.div_pos; lia | |]; apply Z.div_lt_upper_bound; lia.
Qed.

Lemma string_append_assoc (s1 s2 s3 : string) :
  ((s1 ++ s2) ++ s3)%string = (s1 ++ (s2 ++ s3))%string.
Proof.
  induction s1 as [| c s1 IH]; [reflexivity |].
  change (String c ((s1 ++ s2) ++ s3) = String c (s1 ++ (s2 ++ s3)))%string.
  f_equal. exact IH.
Qed.

Lemma decimalOf_suffix (fuel : nat) :
  forall n suffix,
    decimalOf fuel n suffix = (decimalOf fuel n "" ++ suffix)%string.
Proof.
  induction fuel as [| fuel IH]; intros n suffix; cbn [decimalOf];
    [reflexivity |].
  destruct (n <? 10); [reflexivity |].
  rewrite (IH _ (String _ suffix)), (IH _ (String _ "")).
  rewrite string_append_assoc. reflexivity.
Qed.

Lemma string_length_append (s1 s2 : string) :
  String.length (s1 ++ s2) = (String.length s1 + String.length s2)%nat.
Proof.
  induction s1 as [| c s1 IH]; [reflexivity |].
  change (S (String.length (s1 ++ s2))
          = S (String.length s1 + String.length s2)).
  f_equal. exact IH.
Qed.

(** The numeral of [a * 10 ^ (digits of b) + b] is the numeral of [a]
    followed by the numeral of [b]. *)
Lemma decimalOf_concat (fuelB : nat) :
  forall b suffix a fuelA fuel,
    0 <= b -> b < 10 ^ (Z.of_nat fuelB + 1) ->
    0 < a -> a < 10 ^ (Z.of_nat fuelA + 1) ->
    a * 10 ^ Z.of_nat (String.length (decimalOf fuelB b "")) + b
    < 10 ^ (Z.of_nat fuel + 1) ->
    decimalOf fuel
      (a * 10 ^ Z.of_nat (String.length (decimalOf fuelB b "")) + b) suffix
    = decimalOf fuelA a (decimalOf fuelB b suffix).
Proof.
  assert (Hsmall : forall b suffix a fuelA fuel,
            0 <= b < 10 -> 0 < a -> a < 10 ^ (Z.of_nat fuelA + 1) ->
            a * 10 ^ 1 + b < 10 ^ (Z.of_nat fuel + 1) ->
            decimalOf fuel (a * 10 ^ 1 + b) suffix
            = decimalOf fuelA a (String (digitChar (b mod 10)) suffix)).
  { intros b suffix a fuelA fuel Hb Ha HfA Hf.
    change (10 ^ 1) with 10 in *.
    destruct fuel as [| fuel]; [simpl in Hf; lia |].
    cbn [decimalOf]. destruct (Z.ltb_spec (a * 10 + b) 10); [lia |].
    replace ((a * 10 + b) / 10) with a
      by (rewrite Z.div_add_l by lia; rewrite Z.div_small; lia).
    replace ((a * 10 + b) mod 10) with (b mod 10)
      by (rewrite Z.add_comm, Z.mod_add; lia).
    apply decimalOf_fuel; [lia | | exact HfA].
    replace (Z.of_nat (S fuel) + 1) with (Z.succ (Z.of_nat fuel + 1)) in Hf
      by lia.
    rewrite Z.pow_succ_r in Hf by lia. lia. }
  induction fuelB as [| fuelB IH]; intros b suffix a fuelA fuel Hb HfB Ha HfA Hf.
  - simpl in HfB. cbn [decimalOf String.length] in *.
    apply Hsmall; auto; lia.
  - cbn [decimalOf] in *. destruct (Z.ltb_spec b 10) as [Hlt | Hge].
    + cbn [String.length] in *. apply Hsmall; auto; lia.
    + assert (Hlen : String.length
                       (decimalOf fuelB (b / 10)
                          (String (digitChar (b mod 10)) ""))
                     = (String.length (decimalOf fuelB (b / 10) "") + 1)%nat)
        by (rewrite decimalOf_suffix, string_length_append; reflexivity).
      rewrite Hlen in Hf |- *. clear Hlen.
      set (len := String.length (decimalOf fuelB (b / 10) "")) in *.
      replace (Z.of_nat (len + 1)) with (Z.succ (Z.of_nat len)) in Hf |- *
        by lia.
      rewrite Z.pow_succ_r in Hf |- * by lia.
      set (p := 10 ^ Z.of_nat len) in *.
      assert (Hp : 0 < p) by (apply Z.pow_pos_nonneg; lia).
      replace (Z.of_nat (S fuelB) + 1) with (Z.succ (Z.of_nat fuelB + 1)) in HfB
        by lia.
      rewrite Z.pow_succ_r in HfB by lia.
      destruct fuel as [| fuel]; [simpl in Hf; nia |].
      replace (Z.of_nat (S fuel) + 1) with (Z.succ (Z.of_nat fuel + 1)) in Hf
        by lia.
      rewrite Z.pow_succ_r in Hf by lia.
      cbn [decimalOf].
      destruct (Z.ltb_spec (a * (10 * p) + b) 10); [nia |].
      replace (a * (10 * p) + b) with (a * p * 10 + b) in * by lia.
      replace ((a * p * 10 + b) / 10) with (a * p + b / 10)
        by (rewrite Z.div_add_l by lia; reflexivity).
      replace ((a * p * 10 + b) mod 10) with (b mod 10)
        by (rewrite Z.add_comm, Z.mod_add; lia).
      subst p len. apply IH; auto.
      * apply Z.div_pos; lia.
      * apply Z.div_lt_upper_bound; lia.
      * pose proof (Z.div_mod b 10). pose proof (Z.mod_pos_bound b 10).
        fold (String.length (decimalOf fuelB (b / 10) "")).
        set (p := 10 ^ Z.of_nat (String.length (decimalOf fuelB (b / 10) "")))
          in *.
        lia.
Qed.

Lemma toStringZ_concat (a b : Z) :
  0 < a -> 0 <= b ->
  toStringZ (a * 10 ^ Z.of_nat (String.length (toStringZ b)) + b)
  = (toStringZ a ++ toStringZ b)%string.
Proof.
  intros Ha Hb. unfold toStringZ.
  destruct (Z.ltb_spec a 0); [lia |]. destruct (Z.ltb_spec b 0); [lia |].
  set (n := a * 10 ^ Z.of_nat _ + b).
  assert (Hn : 0 <= n).
  { subst n.
    assert (0 <= 10 ^ Z.of_nat
                   (String.length (decimalOf (Z.to_nat (Z.log2 b)) b "")))
      by (apply Z.pow_nonneg; lia).
    nia. }
  destruct (Z.ltb_spec n 0); [lia |].
  subst n. rewrite (decimalOf_concat _ b "" a (Z.to_nat (Z.log2 a))).
  - now rewrite decimalOf_suffix.
  - exact Hb.
  - now apply log2_fuel.
  - exact Ha.
  - apply log2_fuel. lia.
  - now apply log2_fuel.
Qed.

(** X4: the text of a valid [Combination] of two non-negative numbers is the
    numeral of the left one followed by the numeral of the right one. *)
Theorem X4_Combination_concatenates_numerals (numberA numberB : Segment) :
  isValid (Combination numberA numberB) = true ->
  0 <= getValue numberA -> 0 <= getValue numberB ->
  expressions (Combination numberA numberB)
  = [(toStringZ (getValue numberA) ++ toStringZ (getValue numberB))%string]
  /\ toStringZ (getValue (Combination numberA numberB))
     = (toStringZ (getValue numberA) ++ toStringZ (getValue numberB))%string.
Proof.
  intros Hv HA HB.
  assert (Hval : toStringZ (getValue (Combination numberA numberB))
                 = (toStringZ (getValue numberA)
                    ++ toStringZ (getValue numberB))%string).
  { rewrite Combination_eq in Hv |- *.
    destruct (negb (haveRepeatingDigits numberA numberB) && _ && _ && _ && _)
      eqn:E; fields; [| discriminate].
    apply andb_true_iff in E as [E _]. apply andb_true_iff in E as [_ E].
    apply negb_true_iff, Z.eqb_neq in E.
    apply toStringZ_concat; [unfold getValue in *; lia | exact HB]. }
  split; [| exact Hval].
  destruct (Combination_valid_inv _ _ Hv) as (_ & _ & He & _).
  now rewrite He, Hval.
Qed.

Lemma X4_Combination_concatenates_numerals_witness :
  expressions (Combination (Combination (digitSegmentAt 7 0) (digitSegmentAt 0 1))
                 (digitSegmentAt 5 3))
  = ["705"].
Proof.
  apply (proj1 (X4_Combination_concatenates_numerals
                  (Combination (digitSegmentAt 7 0) (digitSegmentAt 0 1))
                  (digitSegmentAt 5 3) eq_refl
                  ltac:(vm_compute; discriminate)
                  ltac:(vm_compute; discriminate))).
Defined.

Lemma someValue_false (l : list Segment) (new : Segment) :
  someValue l new = false -> ~ In (getValue new) (map getValue l).
Proof.
  unfold someValue. intros Hf Hin. apply in_map_iff in Hin as (old & Hv & Hold).
  assert (existsb (fun old => getValue old =? getValue new) l = true);
    [| congruence].
  apply existsb_exists. exists old. split; [exact Hold | now apply Z.eqb_eq].
Qed.

Lemma NoDup_values_snoc (l : list Segment) (new : Segment) :
  NoDup (map getValue l) -> someValue l new = false ->
  NoDup (map getValue (l ++ [new])).
Proof.
  intros Hnd Hf. rewrite map_app. simpl.
  apply NoDup_app. split; [exact Hnd |]. split; [| apply NoDup_singleton].
  intros v Hv Hlast. apply list_elem_of_In in Hv, Hlast.
  destruct Hlast as [<- | []]. now apply (someValue_false l new).
Qed.

Lemma Combination_valid_number (numberA numberB : Segment) :
  isValid (Combination numberA numberB) = true ->
  isNumber (Combination numberA numberB) = true
  /\ isComplete (Combination numberA numberB) = false
  /\ isSolution (Combination numberA numberB) = false
  /\ usedDigits (Combination numberA numberB) <> 15.
Proof.
  rewrite Combination_eq.
  destruct (negb (haveRepeatingDigits numberA numberB) && _ && _ && _ && _)
    eqn:E; fields; [| discriminate].
  intros _. apply andb_true_iff in E as [_ E].
  apply negb_true_iff, Z.eqb_neq in E. now repeat split.
Qed.

Lemma numberCombinations_kept (this : Calculator_state) :
  (NoDup (map getValue (fst (numberCombinations this)))
   /\ NoDup (map getValue (snd (numberCombinations this))))
  /\ Forall (fun s => exists a b, s = Combination a b /\ isValid s = true)
       (fst (numberCombinations this) ++ snd (numberCombinations this)).
Proof.
  set (P := fun acc : list Segment * list Segment =>
              (NoDup (map getValue (fst acc))
               /\ NoDup (map getValue (snd acc)))
              /\ Forall (fun s => exists a b,
                            s = Combination a b /\ isValid s = true)
                   (fst acc ++ snd acc)).
  change (P (numberCombinations this)).
  unfold numberCombinations.
  apply (fold_left_invariant P).
  - intros acc numberA _ Hacc.
    apply (fold_left_invariant P); [| exact Hacc].
    clear acc Hacc.
    intros [twoDigits threeDigits] numberB _ [[H2 H3] Hall]. simpl in *.
    apply Forall_app in Hall as [Hall2 Hall3].
    assert (Hthree :
              NoDup
                (map getValue
                   (addThreeDigits this (Combination numberA numberB)
                      threeDigits))
              /\ Forall (fun s => exists a b,
                            s = Combination a b /\ isValid s = true)
                   (addThreeDigits this (Combination numberA numberB)
                      threeDigits)).
    { unfold addThreeDigits.
      apply (fold_left_invariant
               (fun l => NoDup (map getValue l)
                         /\ Forall (fun s => exists a b,
                                       s = Combination a b
                                       /\ isValid s = true) l));
        [| now split].
      intros l numberC _ [Hnd Hl].
      destruct (isValid (Combination (Combination numberA numberB) numberC))
        eqn:Hv; simpl; [| now split].
      destruct (someValue l _) eqn:Hsome; simpl; [now split |].
      split; [now apply NoDup_values_snoc |].
      apply Forall_app. split; [exact Hl |].
      constructor; [| constructor]. eauto. }
    destruct Hthree as [Hnd3 Hall3'].
    destruct (isValid (Combination numberA numberB)) eqn:Hv; simpl.
    + destruct (someValue twoDigits _) eqn:Hsome; simpl.
      * split; [now split |]. apply Forall_app. now split.
      * split; [split; [now apply NoDup_values_snoc | exact Hnd3] |].
        apply Forall_app. split; [| exact Hall3'].
        apply Forall_app. split; [exact Hall2 |].
        constructor; [| constructor]. eauto.
    + split; [now split |]. apply Forall_app. now split.
  - split; [split; constructor | constructor].
Qed.

(** X5: [addNumberCombinations] appends to the registry, after what it
    held, the two-digit numbers and then the three-digit numbers and leaves
    the solutions alone; the two-digit numbers have pairwise different values
    and so have the three-digit numbers; each of them is a valid number,
    neither complete nor a solution. *)
Theorem X5_addNumberCombinations_distinct_numbers (this : Calculator_state) :
  let twoDigits := fst (numberCombinations this) in
  let threeDigits := snd (numberCombinations this) in
  segments (addNumberCombinations this)
  = segments this ++ twoDigits ++ threeDigits
  /\ solutions (addNumberCombinations this) = solutions this
  /\ NoDup (map getValue twoDigits)
  /\ NoDup (map getValue threeDigits)
  /\ Forall (fun s => isValid s = true /\ isNumber s = true
                      /\ isComplete s = false /\ isSolution s = false)
       (twoDigits ++ threeDigits).
Proof.
  intros twoDigits threeDigits. subst twoDigits threeDigits.
  split; [| split].
  - unfold addNumberCombinations. now destruct (numberCombinations this).
  - unfold addNumberCombinations. now destruct (numberCombinations this).
  - destruct (numberCombinations_kept this) as [[H2 H3] Hall].
    split; [exact H2 |]. split; [exact H3 |].
    apply List.Forall_forall. intros s Hs.
    rewrite List.Forall_forall in Hall.
    destruct (Hall s Hs) as (a & b & -> & Hv).
    destruct (Combination_valid_number a b Hv) as (Hn & Hc & Hsol & _).
    now repeat split.
Qed.

(** ** The registry *)

Lemma keptSegment_digit (digit digitIndex : Z) :
  0 <= digitIndex <= 3 -> keptSegment (digitSegmentAt digit digitIndex).
Proof.
  intros Hi. destruct (wellFormed_digit digit digitIndex Hi) as [Hm Ht].
  rewrite digitSegmentAt_eq in * by exact Hi. unfold keptSegment. fields.
  repeat split; try assumption; try discriminate; try lia.
  intros H15. exfalso.
  assert (digitIndex = 0 \/ digitIndex = 1 \/ digitIndex = 2 \/ digitIndex = 3)
    as [-> | [-> | [-> | ->]]] by lia; discriminate.
Qed.

Lemma keptSegment_wellFormed (s : Segment) : keptSegment s -> wellFormed s.
Proof. intros (_ & Ht & Hm & _). now split. Qed.

Lemma keptSegment_combination (numberA numberB : Segment) :
  keptSegment numberA -> keptSegment numberB ->
  isValid (Combination numberA numberB) = true ->
  keptSegment (Combination numberA numberB).
Proof.
  intros HA HB Hv.
  destruct (wellFormed_combination _ _ (keptSegment_wellFormed _ HA)
              (keptSegment_wellFormed _ HB) Hv) as [Hm Ht].
  destruct (Combination_valid_number _ _ Hv) as (Hn & Hc & Hs & H15).
  destruct (Combination_valid_inv _ _ Hv) as (_ & _ & _ & Hd).
  unfold keptSegment. rewrite Hv, Hn, Hc, Hs, Hd.
  repeat split; try assumption; try reflexivity; try discriminate; try lia.
Qed.

Lemma keptSegment_operation (operandA operandB operation : Segment) :
  operation = Addition operandA operandB
  \/ operation = Subtraction operandA operandB ->
  keptSegment operandA -> keptSegment operandB ->
  haveRepeatingDigits operandA operandB = false ->
  isValid operation = true ->
  keptSegment operation.
Proof.
  intros Hop HA HB Hrep Hv.
  destruct (wellFormed_operation _ _ _ Hop (keptSegment_wellFormed _ HA)
              (keptSegment_wellFormed _ HB) Hrep Hv) as [Hm Ht].
  assert (Hfields : isComplete operation = (usedDigits operation =? 15)
                    /\ isNumber operation = false
                    /\ isDistributive operation = true).
  { destruct Hop as [-> | ->];
      [rewrite Addition_eq | rewrite Subtraction_eq];
      now destruct (negb (haveRepeatingDigits operandA operandB) && _). }
  destruct Hfields as (Hc & Hn & Hd).
  pose proof (Operation_isValid _ _ _ Hop) as Hvalid.
  rewrite Hv, Hrep in Hvalid. simpl in Hvalid.
  pose proof (Constructed_isSolution _ (Operation_Constructed _ _ _ Hop))
    as Hsol.
  unfold keptSegment. rewrite Hn, Hd.
  repeat split; try assumption; try reflexivity; try discriminate; try lia.
  - rewrite Hc. apply Z.eqb_eq.
  - rewrite Hc. apply Z.eqb_eq.
  - destruct (isComplete operation), (isSolution operation);
      simpl in Hvalid; try reflexivity; try discriminate.
    exfalso. destruct Hsol as [Hsol _]. destruct (Hsol eq_refl). discriminate.
Qed.

Lemma Calculator_keptSegment (fuel : nat) (digits : list Z)
    (result : Calculator_state) :
  Calculator fuel digits = Returned result ->
  Forall keptSegment (segments result).
Proof.
  apply Calculator_G.
  - exact keptSegment_digit.
  - exact keptSegment_combination.
  - intros a b HA HB. now apply (keptSegment_operation a b); [left | ..].
  - intros a b HA HB. now apply (keptSegment_operation a b); [right | ..].
Qed.

(** X6: every segment of the returned registry is valid and has a text,
    has a mask between 1 and 15, is complete exactly when its mask is
    [0b1111] and exactly when it is a solution, and is either a number (never
    complete) or an addition or subtraction. *)
Theorem X6_registry_segments (fuel : nat) (digits : list Z)
    (result : Calculator_state) (s : Segment) :
  Calculator fuel digits = Returned result ->
  In s (segments result) ->
  isValid s = true
  /\ expressions s <> []
  /\ 1 <= usedDigits s <= 15
  /\ (isComplete s = true <-> usedDigits s = 15)
  /\ isSolution s = isComplete s
  /\ isNumber s = negb (isDistributive s)
  /\ (isNumber s = true -> isComplete s = false).
Proof.
  intros Hres Hin.
  pose proof (Calculator_keptSegment fuel digits result Hres) as Hall.
  rewrite List.Forall_forall in Hall. exact (Hall s Hin).
Qed.

Lemma X6_registry_segments_witness :
  exists s,
    In s (segments (returned (Calculator 4 [1; 0; 0; 0])))
    /\ usedDigits s = 15 /\ isSolution s = isComplete s.
Proof.
  assert (Hres : Calculator 4 [1; 0; 0; 0]
                 = Returned (returned (Calculator 4 [1; 0; 0; 0])))
    by (vm_compute; reflexivity).
  assert (Hsome : exists s,
             In s (segments (returned (Calculator 4 [1; 0; 0; 0])))
             /\ usedDigits s = 15).
  { assert (Hb : existsb (fun s => usedDigits s =? 15)
                   (segments (returned (Calculator 4 [1; 0; 0; 0]))) = true)
      by (vm_compute; reflexivity).
    apply existsb_exists in Hb as (s & Hs & Hm).
    exists s. split; [exact Hs | apply Z.eqb_eq, Hm]. }
  destruct Hsome as (s & Hs & Hm). exists s.
  split; [exact Hs |]. split; [exact Hm |].
  exact (proj1 (proj2 (proj2 (proj2 (proj2
           (X6_registry_segments 4 [1; 0; 0; 0] _ s Hres Hs)))))).
Defined.

(** ** The solution map and the registry *)

Lemma generateOperations_J (G : Segment -> Prop)
    (J : list Segment -> gmap Z (list (option string)) -> Prop) :
  (forall a b, G a -> G b -> haveRepeatingDigits a b = false ->
               isValid (Addition a b) = true -> G (Addition a b)) ->
  (forall a b, G a -> G b -> haveRepeatingDigits a b = false ->
               isValid (Subtraction a b) = true -> G (Subtraction a b)) ->
  (forall segs sols l operation segmentA segmentB,
      Forall G segs -> In segmentA segs -> In segmentB segs ->
      haveRepeatingDigits segmentA segmentB = false ->
      operation = Addition segmentA segmentB
      \/ operation = Subtraction segmentA segmentB ->
      isValid operation = true ->
      operationExistsIn operation l = false ->
      operationExistsIn operation segs = false ->
      J (segs ++ l) sols ->
      J (segs ++ l ++ [operation])
        (if isSolution operation
         then addSolution sols (getValue operation) (toString operation)
         else sols)) ->
  forall fuel this result,
    Forall G (segments this) -> J (segments this) (solutions this) ->
    generateOperations fuel this = Returned result ->
    Forall G (segments result) /\ J (segments result) (solutions result).
Proof.
  intros Gadd Gsub Jacc fuel this result HG HJ Hres.
  refine (generateOperations_invariant
            (fun st => Forall G (segments st) /\ J (segments st) (solutions st))
            _ fuel this result (conj HG HJ) Hres).
  intros st [HG' HJ']. simpl. rewrite round_segments. split.
  - apply Forall_app. split; [exact HG' | now apply round_G].
  - now apply (round_J G J).
Qed.

Lemma reportedTexts_snoc (segs : list Segment) (s : Segment) (v : Z) :
  reportedTexts (segs ++ [s]) v
  = reportedTexts segs v
    ++ (if isSolution s && (getValue s =? v) then [toString s] else []).
Proof.
  unfold reportedTexts. rewrite List.filter_app, map_app. simpl.
  now destruct (isSolution s && (getValue s =? v)).
Qed.

Lemma reportedTexts_none (segs : list Segment) (v : Z) :
  Forall (fun s => isSolution s = false) segs -> reportedTexts segs v = [].
Proof.
  intros Hall. unfold reportedTexts.
  induction Hall as [| s segs Hs _ IH]; simpl; [reflexivity |].
  now rewrite Hs.
Qed.

Lemma solutionsOfRegistry_accept (segs : list Segment)
    (sols : gmap Z (list (option string))) (operation : Segment) :
  solutionsOfRegistry segs sols ->
  solutionsOfRegistry (segs ++ [operation])
    (if isSolution operation
     then addSolution sols (getValue operation) (toString operation)
     else sols).
Proof.
  intros HJ v. rewrite reportedTexts_snoc. specialize (HJ v).
  destruct (isSolution operation) eqn:Hsol; simpl;
    [| now rewrite app_nil_r].
  rewrite addSolution_lookup.
  destruct (decide (getValue operation = v)) as [<- | Hne].
  - rewrite Z.eqb_refl.
    assert (Hold : default [] (sols !! getValue operation)
                   = reportedTexts segs (getValue operation)).
    { rewrite HJ. now destruct (reportedTexts segs (getValue operation)). }
    rewrite Hold.
    now destruct (reportedTexts segs (getValue operation)).
  - destruct (Z.eqb_spec (getValue operation) v); [contradiction |].
    now rewrite app_nil_r.
Qed.

Lemma initial_registry_no_solution (d0 d1 d2 d3 : Z) :
  Forall (fun s => isSolution s = false)
    (segments (addNumberCombinations (mkCalculator (seedSegments d0 d1 d2 d3) ∅))).
Proof.
  apply addNumberCombinations_G.
  - intros a b _ _ Hv. now destruct (Combination_valid_number a b Hv) as (_ & _ & ? & _).
  - apply seedSegments_G. intros digit digitIndex Hi.
    now rewrite digitSegmentAt_eq.
Qed.

(** X7: the returned solution map is read off the returned registry: under
    a value it lists the primary texts of the solution segments of that value
    in the order of the registry, and it has no key without such a segment
    (so no key with an empty list). *)
Theorem X7_solutions_are_registry_solutions (fuel : nat) (digits : list Z)
    (result : Calculator_state) (v : Z) :
  Calculator fuel digits = Returned result ->
  getSolutions result !! v
  = match reportedTexts (segments result) v with
    | [] => None
    | texts => Some texts
    end.
Proof.
  intros Hres.
  destruct (Nat.eq_dec (length digits) 4%nat) as [Hlen | Hlen];
    [| rewrite Calculator_not_four in Hres by exact Hlen; discriminate].
  destruct (length_four digits Hlen) as (d0 & d1 & d2 & d3 & ->).
  rewrite Calculator_four in Hres.
  apply (generateOperations_J (fun _ => True) solutionsOfRegistry) in Hres;
    auto.
  - now apply (proj2 Hres).
  - intros segs sols l operation segmentA segmentB _ _ _ _ _ _ _ _ HJ.
    rewrite app_assoc. now apply solutionsOfRegistry_accept.
  - apply List.Forall_forall. intros s _. exact I.
  - intros v'. rewrite reportedTexts_none by apply initial_registry_no_solution.
    unfold addNumberCombinations.
    destruct (numberCombinations _) as [twoDigits threeDigits].
    apply lookup_empty.
Qed.

Lemma X7_solutions_are_registry_solutions_witness :
  getSolutions (returned (Calculator 4 [1; 0; 0; 0])) !! 100
  = Some [Some "0 + 100"; Some "100 - 0"]
  /\ reportedTexts (segments (returned (Calculator 4 [1; 0; 0; 0]))) 100
     = [Some "0 + 100"; Some "100 - 0"].
Proof.
  assert (Hrep : reportedTexts (segments (returned (Calculator 4 [1; 0; 0; 0])))
                   100
                 = [Some "0 + 100"; Some "100 - 0"])
    by (vm_compute; reflexivity).
  split; [| exact Hrep].
  rewrite (X7_solutions_are_registry_solutions 4 [1; 0; 0; 0]
             (returned (Calculator 4 [1; 0; 0; 0])) 100);
    [rewrite Hrep; reflexivity | vm_compute; reflexivity].
Defined.

(** ** The fixed point *)

Lemma round_nothing_accepted (this : Calculator_state) :
  snd (round this) = [] -> round this = (this, []).
Proof.
  intros Hnil.
  assert (H : snd (round this) = [] -> fst (round this) = this).
  { apply (round_invariant this (fun acc => snd acc = [] -> fst acc = this));
      [reflexivity |].
    intros [this' l] segmentA segmentB operation _ _ _ _ _ Hacc.
    destruct (addOperation_cases operation this' l) as [-> | (_ & _ & _ & ->)];
      [exact Hacc |].
    simpl. intros E. now destruct l. }
  destruct (round this) as [this' l]. simpl in *.
  now rewrite H, Hnil.
Qed.

Lemma generateOperations_fixed_point (fuel : nat) :
  forall this result,
    generateOperations fuel this = Returned result ->
    round result = (result, []).
Proof.
  induction fuel as [| fuel IH]; intros this result Hgen; [discriminate |].
  cbn [generateOperations] in Hgen.
  pose proof (round_nothing_accepted this) as Hnil.
  destruct (round this) as [this' newOperations] eqn:Hround.
  destruct newOperations as [| operation rest].
  - simpl in Hgen. inversion Hgen; subst result; clear Hgen.
    specialize (Hnil eq_refl). inversion Hnil; subst this'.
    unfold addSegments. rewrite app_nil_r.
    replace (mkCalculator (segments this) (solutions this)) with this
      by now destruct this.
    exact Hround.
  - change (0 <? Z.of_nat (length (operation :: rest))) with true in Hgen.
    cbn iota in Hgen. now apply IH in Hgen.
Qed.

(** X8: the returned object is a fixed point of the round: a further round
    accepts nothing and changes nothing, and every addition or subtraction of
    two registry segments with disjoint masks is either invalid or [equals] to
    a segment of the registry. *)
Theorem X8_result_is_fixed_point (fuel : nat) (digits : list Z)
    (result : Calculator_state) :
  Calculator fuel digits = Returned result ->
  round result = (result, [])
  /\ forall segmentA segmentB operation,
       In segmentA (segments result) -> In segmentB (segments result) ->
       haveRepeatingDigits segmentA segmentB = false ->
       operation = Addition segmentA segmentB
       \/ operation = Subtraction segmentA segmentB ->
       isValid operation = false
       \/ exists kept,
            In kept (segments result) /\ equals kept operation = true.
Proof.
  intros Hres.
  assert (Hwf : Forall wellFormed (segments result)).
  { pose proof (Calculator_keptSegment fuel digits result Hres) as Hall.
    rewrite List.Forall_forall in *. intros s Hs.
    apply keptSegment_wellFormed, Hall, Hs. }
  assert (Hfix : round result = (result, [])).
  { destruct (Nat.eq_dec (length digits) 4%nat) as [Hlen | Hlen];
      [| rewrite Calculator_not_four in Hres by exact Hlen; discriminate].
    destruct (length_four digits Hlen) as (d0 & d1 & d2 & d3 & ->).
    rewrite Calculator_four in Hres.
    now apply generateOperations_fixed_point in Hres. }
  split; [exact Hfix |].
  intros segmentA segmentB operation HA HB Hrep Hop.
  pose proof (round_settles result Hwf _ _ _ HA HB Hrep Hop) as Hset.
  rewrite Hfix in Hset. destruct Hset as [H | [H | H]].
  - now left.
  - right. apply existsb_exists in H. exact H.
  - discriminate.
Qed.

Lemma X8_result_is_fixed_point_witness :
  round (returned (Calculator 4 [0; 0; 0; 0]))
  = (returned (Calculator 4 [0; 0; 0; 0]), []).
Proof.
  apply (X8_result_is_fixed_point 4 [0; 0; 0; 0]).
  vm_compute; reflexivity.
Defined.

(** ** Values on decimal digits *)

Lemma hasDecimalDigits_exists (fuel : nat) :
  forall n, 0 <= n < 10 ^ (Z.of_nat fuel + 1) -> exists k, hasDecimalDigits n k.
Proof.
  induction fuel as [| fuel IH]; intros n Hn.
  - exists 1%nat. left. simpl in Hn. split; [reflexivity | lia].
  - destruct (Z_lt_dec n 10) as [Hlt | Hge].
    + exists 1%nat. left. split; [reflexivity | lia].
    + replace (Z.of_nat (S fuel) + 1) with (Z.succ (Z.of_nat fuel + 1)) in Hn
        by lia.
      rewrite Z.pow_succ_r in Hn by lia.
      destruct (IH (n / 10)) as [k Hk].
      { split; [apply Z.div_pos; lia | apply Z.div_lt_upper_bound; lia]. }
      exists (S k). right.
      pose proof (Z.div_mod n 10). pose proof (Z.mod_pos_bound n 10).
      replace (Z.of_nat (S k)) with (Z.succ (Z.of_nat k)) by lia.
      rewrite Z.pow_succ_r by lia.
      replace (Z.succ (Z.of_nat k) - 1) with (Z.of_nat k) by lia.
      destruct Hk as [[-> Hk] | [Hk1 Hk]].
      * split; [lia |]. change (10 ^ Z.of_nat 1) with 10. lia.
      * split; [lia |].
        replace (Z.of_nat k) with (Z.succ (Z.of_nat k - 1)) at 1 by lia.
        rewrite Z.pow_succ_r by lia. lia.
Qed.

Lemma numeral_length_bounds (n : Z) :
  0 <= n ->
  n < 10 ^ Z.of_nat (String.length (toStringZ n))
  /\ forall m, 1 <= m -> n < 10 ^ m ->
       Z.of_nat (String.length (toStringZ n)) <= m.
Proof.
  intros Hn.
  destruct (hasDecimalDigits_exists (Z.to_nat (Z.log2 n)) n) as [k Hk];
    [split; [exact Hn | now apply log2_fuel] |].
  rewrite (toStringZ_length n k Hk).
  destruct Hk as [[-> Hk] | [Hk1 Hk]].
  - split; [change (10 ^ Z.of_nat 1) with 10; lia | intros m Hm _; lia].
  - split; [lia |]. intros m Hm Hlt.
    destruct (Z_le_dec (Z.of_nat k) m) as [Hle | Hgt]; [exact Hle |].
    exfalso.
    assert (10 ^ m <= 10 ^ (Z.of_nat k - 1)) by (apply Z.pow_le_mono_r; lia).
    lia.
Qed.

Lemma bitCount_below_complete (m : Z) :
  1 <= m <= 15 -> m <> 15 -> bitCount m <= 3.
Proof.
  intros H Hne. assert (H' : 0 <= m <= 15) by lia.
  each_mask m H'; try lia; clear; vm_compute; discriminate.
Qed.

Lemma boundedSegment_digit (digit digitIndex : Z) :
  0 <= digit <= 9 -> 0 <= digitIndex <= 3 ->
  boundedSegment (digitSegmentAt digit digitIndex).
Proof.
  intros Hd Hi. rewrite digitSegmentAt_eq by exact Hi.
  unfold boundedSegment. fields.
  assert (digitIndex = 0 \/ digitIndex = 1 \/ digitIndex = 2 \/ digitIndex = 3)
    as [-> | [-> | [-> | ->]]] by lia;
    (split; [simpl; lia |]); (split; [| lia]);
    change (Z.abs digit < 10); lia.
Qed.

Lemma boundedSegment_combination (numberA numberB : Segment) :
  boundedSegment numberA -> boundedSegment numberB ->
  isValid (Combination numberA numberB) = true ->
  boundedSegment (Combination numberA numberB).
Proof.
  intros (HmA & HvA & HnA) (HmB & HvB & HnB) Hv.
  destruct (Combination_valid_inv _ _ Hv) as (Hrep & Hused & _ & _).
  apply haveRepeatingDigits_false in Hrep.
  destruct (disjoint_masks _ _ HmA HmB Hrep) as [Hm Hbits].
  pose proof (bitCount_range _ HmA) as HkA.
  pose proof (bitCount_range _ HmB) as HkB.
  unfold boundedSegment. rewrite Hused, Hbits.
  split; [exact Hm |].
  rewrite Combination_eq in Hv |- *.
  destruct (negb (haveRepeatingDigits numberA numberB) && _ && _ && _ && _)
    eqn:E; fields; [| discriminate].
  apply andb_true_iff in E as [E _]. apply andb_true_iff in E as [E Hnz].
  apply andb_true_iff in E as [E HnumB]. apply andb_true_iff in E as [_ HnumA].
  apply negb_true_iff, Z.eqb_neq in Hnz.
  specialize (HnA HnumA). specialize (HnB HnumB).
  unfold getValue in *.
  destruct (numeral_length_bounds (value numberB) HnB) as [Hlt Hlen].
  specialize (Hlen (bitCount (usedDigits numberB)) ltac:(lia) ltac:(lia)).
  set (len := Z.of_nat (String.length (toStringZ (value numberB)))) in *.
  assert (Hpow : 10 ^ len <= 10 ^ bitCount (usedDigits numberB))
    by (apply Z.pow_le_mono_r; lia).
  assert (Hpos : 0 < 10 ^ len) by (apply Z.pow_pos_nonneg; lia).
  rewrite Z.pow_add_r by lia.
  set (x := 10 ^ bitCount (usedDigits numberA)) in *.
  set (y := 10 ^ bitCount (usedDigits numberB)) in *.
  set (p := 10 ^ len) in *.
  split; [| intros _; nia].
  rewrite Z.abs_eq by nia.
  rewrite Z.abs_eq in HvA by lia.
  assert (value numberA * p + value numberB < (value numberA + 1) * p) by lia.
  assert ((value numberA + 1) * p <= x * p) by nia.
  assert (x * p <= x * y) by nia.
  lia.
Qed.

Lemma boundedSegment_operation (operandA operandB operation : Segment) :
  operation = Addition operandA operandB
  \/ operation = Subtraction operandA operandB ->
  boundedSegment operandA -> boundedSegment operandB ->
  haveRepeatingDigits operandA operandB = false ->
  boundedSegment operation.
Proof.
  intros Hop (HmA & HvA & _) (HmB & HvB & _) Hrep.
  apply haveRepeatingDigits_false in Hrep.
  destruct (disjoint_masks _ _ HmA HmB Hrep) as [Hm Hbits].
  pose proof (bitCount_range _ HmA) as HkA.
  pose proof (bitCount_range _ HmB) as HkB.
  unfold boundedSegment. rewrite (Operation_usedDigits _ _ _ Hop), Hbits.
  split; [exact Hm |].
  rewrite Z.pow_add_r by lia.
  assert (HxA : 10 ^ 1 <= 10 ^ bitCount (usedDigits operandA))
    by (apply Z.pow_le_mono_r; lia).
  assert (HxB : 10 ^ 1 <= 10 ^ bitCount (usedDigits operandB))
    by (apply Z.pow_le_mono_r; lia).
  change (10 ^ 1) with 10 in *.
  set (x := 10 ^ bitCount (usedDigits operandA)) in *.
  set (y := 10 ^ bitCount (usedDigits operandB)) in *.
  assert (Hval : getValue operation = getValue operandA + getValue operandB
                 \/ getValue operation = getValue operandA - getValue operandB).
  { destruct Hop as [-> | ->];
      [left; rewrite Addition_eq | right; rewrite Subtraction_eq];
      now destruct (negb (haveRepeatingDigits operandA operandB) && _). }
  assert (Hnum : isNumber operation = false).
  { destruct Hop as [-> | ->];
      [rewrite Addition_eq | rewrite Subtraction_eq];
      now destruct (negb (haveRepeatingDigits operandA operandB) && _). }
  split; [| rewrite Hnum; discriminate].
  assert (Hxy : x + y <= x * y) by nia.
  destruct Hval as [-> | ->]; lia.
Qed.

(** X9: when the four digits are decimal digits (0 to 9), the value of a
    registry segment over [k] digit positions is below [10 ^ k] in absolute
    value, hence between -9999 and 9999, and a number is between 0 and
    999. *)
Theorem X9_values_bounded_on_decimal_digits (fuel : nat) (digits : list Z)
    (result : Calculator_state) (s : Segment) :
  Forall (fun d => 0 <= d <= 9) digits ->
  Calculator fuel digits = Returned result ->
  In s (segments result) ->
  Z.abs (getValue s) < 10 ^ bitCount (usedDigits s)
  /\ -10000 < getValue s < 10000
  /\ (isNumber s = true -> 0 <= getValue s < 1000).
Proof.
  intros Hdigits Hres Hin.
  pose proof (Calculator_keptSegment fuel digits result Hres) as Hkept.
  assert (Hall : Forall boundedSegment (segments result)).
  { destruct (Nat.eq_dec (length digits) 4%nat) as [Hlen | Hlen];
      [| rewrite Calculator_not_four in Hres by exact Hlen; discriminate].
    destruct (length_four digits Hlen) as (d0 & d1 & d2 & d3 & ->).
    rewrite Calculator_four in Hres.
    refine (generateOperations_G boundedSegment _ _ fuel _ result _ Hres).
    - intros a b HA HB Hrep _.
      now apply (boundedSegment_operation a b); [left | ..].
    - intros a b HA HB Hrep _.
      now apply (boundedSegment_operation a b); [right | ..].
    - apply addNumberCombinations_G; [exact boundedSegment_combination |].
      inversion Hdigits as [| ? ? H0 Hd1]; subst.
      inversion Hd1 as [| ? ? H1 Hd2]; subst.
      inversion Hd2 as [| ? ? H2 Hd3]; subst.
      inversion Hd3 as [| ? ? H3 _]; subst.
      repeat constructor; apply boundedSegment_digit; lia. }
  rewrite List.Forall_forall in Hall, Hkept.
  destruct (Hall s Hin) as (Hm & Hv & Hn).
  destruct (Hkept s Hin) as (_ & _ & _ & Hc & _ & _ & Hnum).
  pose proof (bitCount_range _ Hm) as Hk.
  split; [exact Hv |].
  assert (H4 : 10 ^ bitCount (usedDigits s) <= 10 ^ 4)
    by (apply Z.pow_le_mono_r; lia).
  change (10 ^ 4) with 10000 in H4.
  split; [lia |].
  intros Hnumber. specialize (Hn Hnumber). specialize (Hnum Hnumber).
  assert (usedDigits s <> 15).
  { intros E. apply Hc in E. congruence. }
  pose proof (bitCount_below_complete _ Hm H).
  assert (H3 : 10 ^ bitCount (usedDigits s) <= 10 ^ 3)
    by (apply Z.pow_le_mono_r; lia).
  change (10 ^ 3) with 1000 in H3. lia.
Qed.

Lemma X9_values_bounded_on_decimal_digits_witness :
  exists s,
    In s (segments (returned (Calculator 4 [9; 9; 9; 9])))
    /\ getValue s = 999 /\ -10000 < getValue s < 10000.
Proof.
  assert (Hres : Calculator 4 [9; 9; 9; 9]
                 = Returned (returned (Calculator 4 [9; 9; 9; 9])))
    by (vm_compute; reflexivity).
  assert (Hb : existsb (fun s => getValue s =? 999)
                 (segments (returned (Calculator 4 [9; 9; 9; 9]))) = true)
    by (vm_compute; reflexivity).
  apply existsb_exists in Hb as (s & Hs & Hv). apply Z.eqb_eq in Hv.
  exists s. split; [exact Hs |]. split; [exact Hv |].
  refine (proj1 (proj2 (X9_values_bounded_on_decimal_digits 4 [9; 9; 9; 9]
                          _ s _ Hres Hs))).
  repeat constructor; lia.
Defined.

(** ** Layout of the registry *)

Lemma Operation_is_operation (operandA operandB operation : Segment) :
  operation = Addition operandA operandB
  \/ operation = Subtraction operandA operandB ->
  isNumber operation = false /\ isDistributive operation = true.
Proof.
  intros [-> | ->]; [rewrite Addition_eq | rewrite Subtraction_eq];
    now destruct (negb (haveRepeatingDigits operandA operandB) && _).
Qed.

Lemma round_operations (this : Calculator_state) :
  Forall (fun s => isNumber s = false /\ isDistributive s = true)
    (snd (round this)).
Proof.
  apply (round_invariant this
           (fun acc => Forall (fun s => isNumber s = false
                                        /\ isDistributive s = true) (snd acc)));
    [constructor |].
  intros [this' l] segmentA segmentB operation _ _ _ Hop _ Hl. simpl in Hl.
  destruct (addOperation_cases operation this' l) as [-> | (_ & _ & _ & ->)];
    [exact Hl |].
  simpl. apply Forall_app. split; [exact Hl |].
  constructor; [| constructor].
  exact (Operation_is_operation _ _ _ Hop).
Qed.

Lemma generateOperations_appends (fuel : nat) :
  forall this result,
    generateOperations fuel this = Returned result ->
    exists operations,
      segments result = segments this ++ operations
      /\ Forall (fun s => isNumber s = false /\ isDistributive s = true)
           operations.
Proof.
  induction fuel as [| fuel IH]; intros this result Hgen; [discriminate |].
  cbn [generateOperations] in Hgen.
  pose proof (round_segments this) as Hseg.
  pose proof (round_operations this) as Hops.
  destruct (round this) as [this' newOperations]. simpl in *.
  destruct (0 <? Z.of_nat (length newOperations)).
  - apply IH in Hgen as (operations & Hres & Hall). simpl in Hres.
    exists (newOperations ++ operations).
    split; [now rewrite Hres, Hseg, app_assoc |].
    apply Forall_app. now split.
  - inversion Hgen; subst result. simpl. exists newOperations.
    split; [now rewrite Hseg | exact Hops].
Qed.

(** X11: the registry is only ever appended to: the returned registry is
    the four digit segments in input order, then the two-digit numbers, then
    the three-digit numbers, then additions and subtractions only. *)
Theorem X11_registry_layout (fuel : nat) (d0 d1 d2 d3 : Z)
    (result : Calculator_state) :
  Calculator fuel [d0; d1; d2; d3] = Returned result ->
  exists operations,
    segments result
    = seedSegments d0 d1 d2 d3
      ++ fst (numberCombinations (mkCalculator (seedSegments d0 d1 d2 d3) ∅))
      ++ snd (numberCombinations (mkCalculator (seedSegments d0 d1 d2 d3) ∅))
      ++ operations
    /\ Forall (fun s => isNumber s = false /\ isDistributive s = true)
         operations.
Proof.
  intros Hres. rewrite Calculator_four in Hres.
  apply generateOperations_appends in Hres as (operations & Hsegs & Hall).
  exists operations. split; [| exact Hall].
  rewrite Hsegs. unfold addNumberCombinations.
  destruct (numberCombinations _) as [twoDigits threeDigits]. simpl.
  now rewrite <- !app_assoc.
Qed.

Lemma X11_registry_layout_witness :
  exists operations,
    segments (returned (Calculator 4 [0; 0; 0; 0]))
    = seedSegments 0 0 0 0
      ++ fst (numberCombinations (mkCalculator (seedSegments 0 0 0 0) ∅))
      ++ snd (numberCombinations (mkCalculator (seedSegments 0 0 0 0) ∅))
      ++ operations
    /\ Forall (fun s => isNumber s = false /\ isDistributive s = true)
         operations.
Proof.
  apply (X11_registry_layout 4 0 0 0 0). vm_compute; reflexivity.
Defined.

(** ** Equal numbers *)

Lemma NoDup_map_injective {A B : Type} (f : A -> B) (l : list A) (x y : A) :
  NoDup (map f l) -> In x l -> In y l -> f x = f y -> x = y.
Proof.
  induction l as [| a l IH]; intros Hnd Hx Hy Hf; [destruct Hx |].
  simpl in Hnd. apply NoDup_cons in Hnd as [Hnotin Hnd].
  destruct Hx as [-> | Hx], Hy as [-> | Hy]; auto.
  - exfalso. apply Hnotin. rewrite Hf. apply list_elem_of_In, in_map, Hy.
  - exfalso. apply Hnotin. rewrite <- Hf. apply list_elem_of_In, in_map, Hx.
Qed.


(** X12: numbers are kept once per value, whatever positions they use: two
    two-digit numbers (or two three-digit numbers) of the registry with the
    same value are the same segment, so they overlap and no addition or
    subtraction of the two is ever formed. *)
Theorem X12_equal_numbers_never_combine (this : Calculator_state)
    (numberA numberB : Segment) :
  Forall wellFormed (segments this) ->
  (In numberA (fst (numberCombinations this))
   /\ In numberB (fst (numberCombinations this)))
  \/ (In numberA (snd (numberCombinations this))
      /\ In numberB (snd (numberCombinations this))) ->
  getValue numberA = getValue numberB ->
  numberA = numberB /\ haveRepeatingDigits numberA numberB = true.
Proof.
  intros Hwf Hin Hval.
  destruct (numberCombinations_kept this) as [[H2 H3] _].
  destruct (numberCombinations_G wellFormed wellFormed_combination this Hwf)
    as [Hwf2 Hwf3].
  rewrite List.Forall_forall in Hwf2, Hwf3.
  assert (Heq : numberA = numberB /\ wellFormed numberA).
  { destruct Hin as [[HA HB] | [HA HB]].
    - split; [now apply (NoDup_map_injective getValue _ _ _ H2) | auto].
    - split; [now apply (NoDup_map_injective getValue _ _ _ H3) | auto]. }
  destruct Heq as [<- [Hm _]]. split; [reflexivity |].
  rewrite haveRepeatingDigits_land, Z.land_diag.
  destruct (Z.eqb_spec (usedDigits numberA) 0); [lia | reflexivity].
Qed.

Lemma X12_equal_numbers_never_combine_witness :
  haveRepeatingDigits
    (Combination (digitSegmentAt 1 0) (digitSegmentAt 0 1))
    (Combination (digitSegmentAt 1 0) (digitSegmentAt 0 1)) = true
  /\ map getValue
       (fst (numberCombinations (mkCalculator (seedSegments 1 0 1 0) ∅)))
     = [10; 11]
  /\ evalText "10 + 10" = Some 20
  /\ getSolutions (returned (Calculator 4 [1; 0; 1; 0])) !! 20 = None.
Proof.
  split; [| repeat split; vm_compute; reflexivity].
  apply (X12_equal_numbers_never_combine
           (mkCalculator (seedSegments 1 0 1 0) ∅)
           (Combination (digitSegmentAt 1 0) (digitSegmentAt 0 1))
           (Combination (digitSegmentAt 1 0) (digitSegmentAt 0 1))).
  - repeat constructor; apply wellFormed_digit; lia.
  - left. split; vm_compute; left; reflexivity.
  - reflexivity.
Defined.

(** ** [getSolutions] *)

Lemma entryBefore_le (x y : Z * list (option string)) :
  entryBefore x y <-> fst x <= fst y.
Proof.
  unfold entryBefore, compareKeys.
  destruct (Z.ltb_spec (fst y) (fst x)); [lia |].
  destruct (Z.ltb_spec (fst x) (fst y)); lia.
Qed.

#[local] Instance entryBefore_total : Total entryBefore.
Proof. intros x y. rewrite !entryBefore_le. lia. Qed.

#[local] Instance entryBefore_transitive : Transitive entryBefore.
Proof. intros x y z. rewrite !entryBefore_le. lia. Qed.

Lemma StronglySorted_strict (l : list (Z * list (option string))) :
  StronglySorted entryBefore l -> NoDup (map fst l) ->
  StronglySorted (fun x y => fst x < fst y) l.
Proof.
  induction 1 as [| x l Hl IH Hx]; intros Hnd; [constructor |].
  simpl in Hnd. apply NoDup_cons in Hnd as [Hnotin Hnd].
  constructor; [now apply IH |].
  rewrite List.Forall_forall in *. intros y Hy.
  specialize (Hx y Hy). apply entryBefore_le in Hx.
  destruct (Z.eq_dec (fst x) (fst y)) as [E | E]; [| lia].
  exfalso. apply Hnotin. rewrite E. apply list_elem_of_In, in_map, Hy.
Qed.

Lemma sorted_entries_unique (sols : gmap Z (list (option string)))
    (entries : list (Z * list (option string))) :
  entries ≡ₚ map_to_list sols ->
  merge_sort entryBefore entries = merge_sort entryBefore (map_to_list sols).
Proof.
  intros Hperm.
  apply (StronglySorted_unique_strong entryBefore).
  - intros [k1 t1] [k2 t2] H1 H2 Hle Hge.
    apply entryBefore_le in Hle, Hge. simpl in Hle, Hge.
    assert (k1 = k2) by lia. subst k2.
    rewrite merge_sort_Permutation in H1, H2. rewrite Hperm in H1.
    apply elem_of_map_to_list in H1, H2. congruence.
  - apply StronglySorted_merge_sort; typeclasses eauto.
  - apply StronglySorted_merge_sort; typeclasses eauto.
  - now rewrite !merge_sort_Permutation.
Qed.

(** X10: the entries [getSolutions] hands out are those of the solution
    map, each key once, in strictly ascending order of the keys; the order in
    which the keys entered the map does not matter. *)
Theorem X10_getSolutions_sorted_by_key (this : Calculator_state) :
  StronglySorted (fun x y => fst x < fst y) (getSolutionsEntries this)
  /\ (forall k texts,
        In (k, texts) (getSolutionsEntries this)
        <-> solutions this !! k = Some texts)
  /\ (forall entries,
        Permutation entries (map_to_list (solutions this)) ->
        merge_sort entryBefore entries = getSolutionsEntries this).
Proof.
  unfold getSolutionsEntries. split; [| split].
  - apply StronglySorted_strict.
    + apply StronglySorted_merge_sort; typeclasses eauto.
    + change (NoDup ((merge_sort entryBefore (map_to_list (solutions this))).*1)).
      rewrite merge_sort_Permutation. apply NoDup_fst_map_to_list.
  - intros k texts. rewrite <- list_elem_of_In, merge_sort_Permutation.
    apply elem_of_map_to_list.
  - intros entries. apply sorted_entries_unique.
Qed.

Lemma X10_getSolutions_sorted_by_key_witness :
  map fst (getSolutionsEntries (returned (Calculator 4 [1; 0; 0; 0])))
  = [1; 10; 100]
  /\ merge_sort entryBefore
       (reverse (map_to_list (solutions (returned (Calculator 4 [1; 0; 0; 0])))))
     = getSolutionsEntries (returned (Calculator 4 [1; 0; 0; 0])).
Proof.
  split; [vm_compute; reflexivity |].
  apply (proj2 (proj2 (X10_getSolutions_sorted_by_key
                         (returned (Calculator 4 [1; 0; 0; 0]))))).
  apply reverse_Permutation.
Defined.

(** ** Adding an operation *)

(** X13: handing [addOperation] the same operation a second time changes
    nothing, provided the operation has a text when it is valid (as every
    operation over registry segments has): it is [equals] to itself. *)
Theorem X13_addOperation_idempotent (operation : Segment)
    (acc : Calculator_state * list Segment) :
  (isValid operation = true -> expressions operation <> []) ->
  addOperation operation (addOperation operation acc)
  = addOperation operation acc.
Proof.
  intros Htext. destruct acc as [this l].
  destruct (addOperation_cases operation this l) as [E | (Hv & _ & _ & E)];
    rewrite E; [exact E |].
  unfold addOperation at 1. rewrite Hv, operationExistsIn_app.
  assert (Hself : operationExistsIn operation [operation] = true).
  { simpl. now rewrite equals_refl by auto. }
  rewrite Hself, orb_true_r. reflexivity.
Qed.

Lemma X13_addOperation_idempotent_witness :
  snd (addOperation (Addition (digitSegmentAt 1 0) (digitSegmentAt 2 1))
         (addOperation (Addition (digitSegmentAt 1 0) (digitSegmentAt 2 1))
            (mkCalculator (seedSegments 1 2 3 4) ∅, [])))
  = [Addition (digitSegmentAt 1 0) (digitSegmentAt 2 1)].
Proof.
  rewrite (X13_addOperation_idempotent
             (Addition (digitSegmentAt 1 0) (digitSegmentAt 2 1))
             (mkCalculator (seedSegments 1 2 3 4) ∅, []));
    [vm_compute; reflexivity | intros _; vm_compute; discriminate].
Defined.

Lemma complete_mask_overlaps (a b : Z) :
  a = 15 -> 1 <= b <= 15 -> Z.land a b <> 0.
Proof.
  intros -> Hb. assert (Hb' : 0 <= b <= 15) by lia.
  each_mask b Hb'; try lia; clear; vm_compute; discriminate.
Qed.

(** X14: a complete segment of the returned registry overlaps every
    segment of the registry, on either side: a solution is never an operand
    of a further addition or subtraction. *)
Theorem X14_complete_segments_are_final (fuel : nat) (digits : list Z)
    (result : Calculator_state) (complete other : Segment) :
  Calculator fuel digits = Returned result ->
  In complete (segments result) -> In other (segments result) ->
  isComplete complete = true ->
  haveRepeatingDigits complete other = true
  /\ haveRepeatingDigits other complete = true
  /\ isValid (Addition complete other) = false
  /\ isValid (Subtraction complete other) = false
  /\ isValid (Addition other complete) = false
  /\ isValid (Subtraction other complete) = false.
Proof.
  intros Hres Hc Ho Hcomplete.
  pose proof (Calculator_keptSegment fuel digits result Hres) as Hall.
  rewrite List.Forall_forall in Hall.
  destruct (Hall _ Hc) as (_ & _ & _ & H15 & _).
  destruct (Hall _ Ho) as (_ & _ & Hm & _).
  apply H15 in Hcomplete.
  assert (Hrep : haveRepeatingDigits complete other = true).
  { rewrite haveRepeatingDigits_land. apply negb_true_iff, Z.eqb_neq.
    now apply complete_mask_overlaps. }
  assert (Hrep' : haveRepeatingDigits other complete = true)
    by now rewrite haveRepeatingDigits_sym.
  split; [exact Hrep |]. split; [exact Hrep' |].
  rewrite (Operation_isValid complete other (Addition complete other))
    by now left.
  rewrite (Operation_isValid complete other (Subtraction complete other))
    by now right.
  rewrite (Operation_isValid other complete (Addition other complete))
    by now left.
  rewrite (Operation_isValid other complete (Subtraction other complete))
    by now right.
  rewrite Hrep, Hrep'. now repeat split.
Qed.

Lemma X14_complete_segments_are_final_witness :
  exists complete,
    In complete (segments (returned (Calculator 4 [1; 0; 0; 0])))
    /\ isComplete complete = true
    /\ haveRepeatingDigits complete (digitSegmentAt 1 0) = true.
Proof.
  assert (Hres : Calculator 4 [1; 0; 0; 0]
                 = Returned (returned (Calculator 4 [1; 0; 0; 0])))
    by (vm_compute; reflexivity).
  assert (Hb : existsb isComplete
                 (segments (returned (Calculator 4 [1; 0; 0; 0]))) = true)
    by (vm_compute; reflexivity).
  apply existsb_exists in Hb as (complete & Hin & Hc).
  assert (Hd : In (digitSegmentAt 1 0)
                 (segments (returned (Calculator 4 [1; 0; 0; 0]))))
    by (vm_compute; left; reflexivity).
  exists complete. split; [exact Hin |]. split; [exact Hc |].
  exact (proj1 (X14_complete_segments_are_final 4 [1; 0; 0; 0] _ complete
                  (digitSegmentAt 1 0) Hres Hin Hd Hc)).
Defined.
